(** * Webli2: the RTSP-to-HLS stream supervisor of [server/index.js]

  A shallow embedding of the supervisor part of the Express server:
  the FFmpeg availability probe ([checkFFmpeg]), the job record
  [streamState], [startRTSPStream], [stopRTSPStream] and the three
  [/api/stream/*] routes.  Node's event loop is made explicit: every
  callback the source registers ([on('error')], [on('close')], the
  [setTimeout] bodies) is a function on the state of the server, and a
  run of the server is a list of time-stamped events. *)

From Stdlib Require Import ZArith List String Bool Lia DecimalString.
Import ListNotations.
Local Open Scope string_scope.
Local Open Scope list_scope.
Local Open Scope Z_scope.

(** ** The JavaScript primitives the server relies on *)

Module Js.

(** [str.endsWith(searchString)] *)
Definition endsWith (str searchString : string) : bool :=
  let n := String.length str in
  let k := String.length searchString in
  (k <=? n)%nat && String.eqb (substring (n - k) k str) searchString.

(** [str.includes(searchString)] *)
Fixpoint includes (str searchString : string) : bool :=
  String.prefix searchString str
  || match str with
     | EmptyString => false
     | String _ rest => includes rest searchString
     end.

(** Truthiness of a request field that is a string when present:
    [undefined], [null] and [""] are falsy. *)
Definition truthy (v : option string) : bool :=
  match v with
  | None => false
  | Some s => negb (String.eqb s "")
  end.

(** [`${code}`] for an integer. *)
Definition number_toString (n : Z) : string :=
  NilZero.string_of_int (Z.to_int n).

(** [path.join(dir, file)] for two plain components. *)
Definition join (dir file : string) : string :=
  (dir ++ "/" ++ file)%string.

End Js.

(** ** The segment directory *)

Module Fs.

Inductive Errno := ENOENT | EPERM.

Inductive Result (A : Type) :=
| Ok (a : A)
| Throw (e : Errno).
Arguments Ok {A} a.
Arguments Throw {A} e.

(** One entry of [HLS_DIR].  [removable] is [false] for an entry on which
    [fs.unlinkSync] throws: a sub-directory, or a file the operating system
    refuses to remove. *)
Record DirEntry := { name : string; removable : bool }.

(** The entries in the order [fs.readdirSync] lists them. *)
Definition Dir := list DirEntry.

(** [fs.readdirSync(HLS_DIR)]; [None] is a directory that cannot be
    read (it was removed after start-up). *)
Definition readdirSync (d : option Dir) : Result (list string) :=
  match d with
  | Some entries => Ok (map name entries)
  | None => Throw ENOENT
  end.

(** [fs.unlinkSync(join(HLS_DIR, file))] *)
Fixpoint unlinkSync (file : string) (d : Dir) : Result Dir :=
  match d with
  | [] => Throw ENOENT
  | e :: rest =>
      if String.eqb (name e) file then
        if removable e then Ok rest else Throw EPERM
      else
        match unlinkSync file rest with
        | Ok rest' => Ok (e :: rest')
        | Throw err => Throw err
        end
  end.

(** [fs.existsSync(join(HLS_DIR, file))] *)
Definition existsSync (file : string) (d : option Dir) : bool :=
  match d with
  | Some entries => existsb (fun e => String.eqb (name e) file) entries
  | None => false
  end.

End Fs.

(** ** The availability probe: [checkFFmpeg] *)

Module Probe.

(** What the probed child can emit. [CloseEvent None] is a child that
    was ended by a signal ([code === null]). *)
Inductive ChildEvent :=
| StdoutData
| StderrData
| ErrorEvent
| CloseEvent (code : option Z).

(** The closure of the promise executor: the local [hasOutput], the
    promise (settled at most once), and whether the fallback timer ran. *)
Record State := {
  hasOutput : bool;
  settled : option bool;
  timerFired : bool
}.

Definition TIMEOUT_MS : Z := 5000.

Definition init : State :=
  {| hasOutput := false; settled := None; timerFired := false |}.

(** [resolve(v)]: only the first call settles the promise. *)
Definition resolve (v : bool) (s : State) : State :=
  match settled s with
  | Some _ => s
  | None => {| hasOutput := hasOutput s; settled := Some v;
               timerFired := timerFired s |}
  end.

Definition code_is_zero (code : option Z) : bool :=
  match code with
  | Some c => c =? 0
  | None => false
  end.

Definition on_child (ev : ChildEvent) (s : State) : State :=
  match ev with
  | StdoutData | StderrData =>
      {| hasOutput := true; settled := settled s;
         timerFired := timerFired s |}
  | ErrorEvent => resolve false s
  | CloseEvent code => resolve (code_is_zero code && hasOutput s) s
  end.

(** The body of the [setTimeout(..., 5000)] fallback.  The [SIGTERM] it
    sends can only show as a later [close] of the child. *)
Definition on_timeout (s : State) : State :=
  resolve false
    {| hasOutput := hasOutput s; settled := settled s; timerFired := true |}.

(** The event loop over the child's events, stamped in milliseconds since
    the spawn.  The fallback timer runs before the first event that is
    not earlier than [TIMEOUT_MS], and at the latest when the child has
    nothing more to say. *)
Fixpoint run (trace : list (Z * ChildEvent)) (s : State) : State :=
  match trace with
  | [] => if timerFired s then s else on_timeout s
  | (t, ev) :: rest =>
      let s' := if negb (timerFired s) && (TIMEOUT_MS <=? t)
                then on_timeout s else s in
      run rest (on_child ev s')
  end.

(** [spawn] either throws (the [catch] branch) or returns a child. *)
Inductive SpawnOutcome :=
| SpawnThrows
| Spawned (trace : list (Z * ChildEvent)).

(** The value the promise of [checkFFmpeg()] settles to; [None] would be
    a promise that stays pending. *)
Definition checkFFmpeg (o : SpawnOutcome) : option bool :=
  match o with
  | SpawnThrows => Some false
  | Spawned trace => settled (run trace init)
  end.

Definition is_data (ev : ChildEvent) : bool :=
  match ev with
  | StdoutData | StderrData => true
  | _ => false
  end.

End Probe.

(** ** The supervisor: [streamState], [startRTSPStream], [stopRTSPStream] *)

Module Supervisor.

(** A child process is named by its rank in the spawn order. *)
Definition pid := nat.

Inductive Signal := SIGTERM.

(** The three [Error] values a start promise can be rejected with. *)
Inductive StartError :=
| SpawnFailure (message : string)
| ExitCodeFailure (code : Z)
| StartTimeout.

Definition error_message (e : StartError) : string :=
  match e with
  | SpawnFailure message => message
  | ExitCodeFailure code =>
      ("FFmpeg process failed with exit code " ++ Js.number_toString code
       ++ ". This may indicate the environment doesn't support FFmpeg execution or the RTSP stream is inaccessible.")%string
  | StartTimeout =>
      "FFmpeg failed to start within timeout period. This environment may not support native binary execution."
  end.

Definition NO_FFMPEG_MESSAGE : string :=
  "FFmpeg not available. RTSP streaming requires FFmpeg for web browser compatibility. This environment does not support native binary execution.".

Inductive Promise :=
| Pending
| Resolved (value : string)
| Rejected (reason : StartError).

(** One call of [spawn('ffmpeg', ffmpegArgs)] together with the promise
    and the grace timer created by the same call of [startRTSPStream]. *)
Record Job := {
  args : list string;
  signals : list Signal;
  promise : Promise;
  graceDue : Z;
  graceFired : bool
}.

(** [let streamState = {...}]. [startTime] is the instant of
    [new Date()], in milliseconds. *)
Record StreamState := {
  isRunning : bool;
  rtspUrl : option string;
  startTime : option Z;
  ffmpegProcess : option pid;
  hasFFmpeg : bool
}.

(** The state of the server process and of what it acts on.  [console]
    keeps the [console.error] lines of the clean-up; the other log lines
    take no part in any decision and are left out. *)
Record World := {
  streamState : StreamState;
  hls : option Fs.Dir;
  jobs : list Job;
  clock : Z;
  console : list string
}.

Definition HLS_DIR : string := "hls".
Definition GRACE_MS : Z := 3000.
Definition outputPath : string := Js.join HLS_DIR "stream.m3u8".

Definition ffmpegArgs (url : string) : list string :=
  [ "-i"; url;
    "-c:v"; "libx264";
    "-c:a"; "aac";
    "-f"; "hls";
    "-hls_time"; "2";
    "-hls_list_size"; "5";
    "-hls_flags"; "delete_segments+append_list";
    "-hls_allow_cache"; "0";
    "-hls_segment_filename"; Js.join HLS_DIR "segment%03d.ts";
    "-y";
    outputPath ].

(** *** Field updates *)

Definition with_streamState (s : StreamState) (w : World) : World :=
  {| streamState := s; hls := hls w; jobs := jobs w; clock := clock w;
     console := console w |}.

Definition with_hls (d : option Fs.Dir) (w : World) : World :=
  {| streamState := streamState w; hls := d; jobs := jobs w;
     clock := clock w; console := console w |}.

Definition with_jobs (js : list Job) (w : World) : World :=
  {| streamState := streamState w; hls := hls w; jobs := js;
     clock := clock w; console := console w |}.

Definition with_clock (t : Z) (w : World) : World :=
  {| streamState := streamState w; hls := hls w; jobs := jobs w;
     clock := t; console := console w |}.

Definition console_error (line : string) (w : World) : World :=
  {| streamState := streamState w; hls := hls w; jobs := jobs w;
     clock := clock w; console := console w ++ [line] |}.

Fixpoint alter {A : Type} (f : A -> A) (i : nat) (l : list A) : list A :=
  match l, i with
  | [], _ => []
  | x :: rest, O => f x :: rest
  | x :: rest, S i' => x :: alter f i' rest
  end.

(** *** Promises and signals *)

Definition settle (v : Promise) (j : Job) : Job :=
  match promise j with
  | Pending =>
      {| args := args j; signals := signals j; promise := v;
         graceDue := graceDue j; graceFired := graceFired j |}
  | _ => j
  end.

Definition resolve (p : pid) (value : string) (w : World) : World :=
  with_jobs (alter (settle (Resolved value)) p (jobs w)) w.

Definition reject (p : pid) (reason : StartError) (w : World) : World :=
  with_jobs (alter (settle (Rejected reason)) p (jobs w)) w.

Definition signalled (sig : Signal) (j : Job) : Job :=
  {| args := args j; signals := signals j ++ [sig]; promise := promise j;
     graceDue := graceDue j; graceFired := graceFired j |}.

(** [child.kill(sig)] *)
Definition kill (p : pid) (sig : Signal) (w : World) : World :=
  with_jobs (alter (signalled sig) p (jobs w)) w.

(** *** [startRTSPStream] *)

(** The call either throws at once or returns the promise of the child
    it spawned.  [spawn] is taken to return a child: a tool that cannot be
    launched shows as the [error] event of that child. *)
Inductive StartResult :=
| Thrown (message : string)
| Promised (p : pid).

Definition startRTSPStream (url : string) (w : World)
  : World * StartResult :=
  if negb (hasFFmpeg (streamState w)) then (w, Thrown NO_FFMPEG_MESSAGE)
  else
    let w1 := match ffmpegProcess (streamState w) with
              | Some old => kill old SIGTERM w
              | None => w
              end in
    let p := List.length (jobs w1) in
    let ffmpeg := {| args := ffmpegArgs url; signals := [];
                     promise := Pending;
                     graceDue := clock w1 + GRACE_MS;
                     graceFired := false |} in
    let w2 := with_jobs (jobs w1 ++ [ffmpeg]) w1 in
    let w3 := with_streamState
                {| isRunning := true;
                   rtspUrl := Some url;
                   startTime := Some (clock w2);
                   ffmpegProcess := Some p;
                   hasFFmpeg := hasFFmpeg (streamState w2) |} w2 in
    (w3, Promised p).

Definition clear_running (s : StreamState) : StreamState :=
  {| isRunning := false;
     rtspUrl := rtspUrl s;
     startTime := startTime s;
     ffmpegProcess := None;
     hasFFmpeg := hasFFmpeg s |}.

(** [ffmpeg.on('error', ...)] of job [p] *)
Definition on_error (p : pid) (message : string) (w : World) : World :=
  reject p (SpawnFailure message)
    (with_streamState (clear_running (streamState w)) w).

(** [ffmpeg.on('close', ...)] of job [p] *)
Definition on_close (p : pid) (code : option Z) (w : World) : World :=
  let w1 := with_streamState (clear_running (streamState w)) w in
  match code with
  | Some c => if negb (c =? 0) then reject p (ExitCodeFailure c) w1 else w1
  | None => w1
  end.

Definition timer_done (j : Job) : Job :=
  {| args := args j; signals := signals j; promise := promise j;
     graceDue := graceDue j; graceFired := true |}.

(** What the [setTimeout(..., 3000)] body of a job does to that job,
    given the [streamState.isRunning] it reads. *)
Definition grace_timeout (running : bool) (j : Job) : Job :=
  if running then settle (Resolved outputPath) (timer_done j)
  else settle (Rejected StartTimeout) (timer_done j).

Definition on_grace_timeout (p : pid) (w : World) : World :=
  with_jobs (alter (grace_timeout (isRunning (streamState w))) p (jobs w)) w.

(** *** [stopRTSPStream] *)

Definition is_hls_file (file : string) : bool :=
  Js.endsWith file ".m3u8" || Js.endsWith file ".ts".

(** The [files.forEach] of the clean-up: an exception of
    [fs.unlinkSync] leaves the loop with the directory as it is then. *)
Fixpoint unlink_each (files : list string) (d : Fs.Dir)
  : Fs.Dir * option Fs.Errno :=
  match files with
  | [] => (d, None)
  | file :: rest =>
      if is_hls_file file then
        match Fs.unlinkSync file d with
        | Fs.Ok d' => unlink_each rest d'
        | Fs.Throw err => (d, Some err)
        end
      else unlink_each rest d
  end.

Definition CLEANUP_ERROR : string := "Error cleaning up HLS files:".

(** The [try { ... } catch (error) { console.error(...) }] block. *)
Definition cleanup (w : World) : World :=
  match Fs.readdirSync (hls w) with
  | Fs.Throw _ => console_error CLEANUP_ERROR w
  | Fs.Ok files =>
      match hls w with
      | None => w
      | Some d =>
          match unlink_each files d with
          | (d', None) => with_hls (Some d') w
          | (d', Some _) => console_error CLEANUP_ERROR (with_hls (Some d') w)
          end
      end
  end.

Definition stopRTSPStream (w : World) : World :=
  let w1 := match ffmpegProcess (streamState w) with
            | Some p =>
                with_streamState
                  {| isRunning := isRunning (streamState w);
                     rtspUrl := rtspUrl (streamState w);
                     startTime := startTime (streamState w);
                     ffmpegProcess := None;
                     hasFFmpeg := hasFFmpeg (streamState w) |}
                  (kill p SIGTERM w)
            | None => w
            end in
  let w2 := with_streamState
              {| isRunning := false;
                 rtspUrl := None;
                 startTime := None;
                 ffmpegProcess := ffmpegProcess (streamState w1);
                 hasFFmpeg := hasFFmpeg (streamState w1) |} w1 in
  cleanup w2.

End Supervisor.

(** ** The routes [/api/stream/start], [/api/stream/stop], [/api/stream/status] *)

Module Api.
Import Supervisor.

Definition PORT_URL : string := "http://localhost:3001/hls/stream.m3u8".

Inductive Mode := production | demo.

Record StatusBody := {
  res_isRunning : bool;
  res_hlsAvailable : bool;
  res_hlsUrl : option string;
  res_rtspUrl : option string;
  res_startTime : option Z;
  res_mode : Mode;
  res_hasFFmpeg : bool
}.

(** The JSON bodies, by their [error] or [message] field. *)
Inductive Body :=
| UrlRequired
| FFmpegNotAvailable
| ConversionStarted (hlsUrl rtspUrl : string)
| ConversionFailed (details rtspUrl : string)
| StartFailed (details : string)
| Stopped
| Status (s : StatusBody).

Record Response := { status : nat; body : Body }.

(** A start request is answered at once, or when its promise settles. *)
Inductive Reply :=
| Sent (r : Response)
| Awaiting (p : pid).

(** [app.post('/api/stream/start', ...)] up to the call of
    [startRTSPStream]; the argument is [req.body.rtspUrl]. *)
Definition post_start (rtspUrl : option string) (w : World)
  : World * Reply :=
  match rtspUrl with
  | None => (w, Sent {| status := 400; body := UrlRequired |})
  | Some url =>
      if negb (Js.truthy rtspUrl) then
        (w, Sent {| status := 400; body := UrlRequired |})
      else if negb (hasFFmpeg (streamState w)) then
        (w, Sent {| status := 500; body := FFmpegNotAvailable |})
      else
        match startRTSPStream url w with
        | (w', Promised p) => (w', Awaiting p)
        | (w', Thrown message) =>
            (w', Sent {| status := 500; body := StartFailed message |})
        end
  end.

(** The [.then] and [.catch] of the start route. *)
Definition start_settled (url : string) (pr : Promise) : option Response :=
  match pr with
  | Pending => None
  | Resolved _ =>
      Some {| status := 200; body := ConversionStarted PORT_URL url |}
  | Rejected e =>
      let message := error_message e in
      if Js.includes message "not available"
         || Js.includes message "not support"
      then Some {| status := 500; body := FFmpegNotAvailable |}
      else Some {| status := 500; body := ConversionFailed message url |}
  end.

(** [app.post('/api/stream/stop', ...)] *)
Definition post_stop (w : World) : World * Response :=
  (stopRTSPStream w, {| status := 200; body := Stopped |}).

(** [app.get('/api/stream/status', ...)] *)
Definition get_status (w : World) : Response :=
  let isRunning := isRunning (streamState w) in
  let hlsExists := Fs.existsSync "stream.m3u8" (hls w) in
  {| status := 200;
     body := Status
       {| res_isRunning := isRunning;
          res_hlsAvailable := hlsExists;
          res_hlsUrl := if hlsExists then Some PORT_URL else None;
          res_rtspUrl := rtspUrl (streamState w);
          res_startTime := startTime (streamState w);
          res_mode := if hasFFmpeg (streamState w)
                      then production else demo;
          res_hasFFmpeg := hasFFmpeg (streamState w) |} |}.

End Api.

(** ** The event loop *)

Module Server.
Import Supervisor.

(** What can happen to the server: the promise of [checkFFmpeg()]
    settles with a value, a request arrives on one of the three routes, a
    child emits [error] or [close], or the directory is rewritten from
    outside (by FFmpeg, for one).  The grace timers are not events: they
    run when the clock passes their due time. *)
Inductive Event :=
| ProbeSettled (capable : bool)
| PostStart (rtspUrl : option string)
| PostStop
| GetStatus
| ChildError (p : pid) (message : string)
| ChildClose (p : pid) (code : option Z)
| DirChanged (d : option Fs.Dir).

(** The server right after the module body has run. *)
Definition boot (d : option Fs.Dir) : World :=
  {| streamState := {| isRunning := false; rtspUrl := None;
                       startTime := None; ffmpegProcess := None;
                       hasFFmpeg := false |};
     hls := d; jobs := []; clock := 0; console := [] |}.

Definition handle (ev : Event) (w : World) : World :=
  match ev with
  | ProbeSettled capable =>
      with_streamState
        {| isRunning := isRunning (streamState w);
           rtspUrl := rtspUrl (streamState w);
           startTime := startTime (streamState w);
           ffmpegProcess := ffmpegProcess (streamState w);
           hasFFmpeg := capable |} w
  | PostStart rtspUrl => fst (Api.post_start rtspUrl w)
  | PostStop => fst (Api.post_stop w)
  | GetStatus => w
  | ChildError p message => on_error p message w
  | ChildClose p code => on_close p code w
  | DirChanged d => with_hls d w
  end.

Definition due (t : Z) (j : Job) : bool :=
  negb (graceFired j) && (graceDue j <=? t).

(** Every grace timer that is due at [t] runs; each one reads
    [streamState.isRunning] and settles its own promise only. *)
Definition fire_timers (t : Z) (w : World) : World :=
  with_jobs
    (map (fun j => if due t j
                   then grace_timeout (isRunning (streamState w)) j
                   else j) (jobs w)) w.

(** The clock moves to [t]: the timers due by then run. *)
Definition advance (t : Z) (w : World) : World :=
  with_clock (Z.max (clock w) t) (fire_timers t w).

(** An event that arrives at time [t]. *)
Definition deliver (te : Z * Event) (w : World) : World :=
  handle (snd te) (advance (fst te) w).

Definition run (trace : list (Z * Event)) (w : World) : World :=
  fold_left (fun w te => deliver te w) trace w.

(** The promise of the start call that spawned [p]. *)
Definition promise_of (p : pid) (w : World) : option Promise :=
  option_map promise (nth_error (jobs w) p).

End Server.

(** ** Descriptions used by the statements *)

Module Descr.
Import Supervisor.

(** The job states of the design document. *)
Inductive JobState := Idle | Starting | Running | Failed.

(** The clean-up read off the listing itself: entries are visited in
    order, an HLS file is dropped, and the first HLS entry that cannot be
    removed ends the visit. *)
Fixpoint sweep (d : Fs.Dir) : Fs.Dir * option Fs.Errno :=
  match d with
  | [] => ([], None)
  | e :: rest =>
      if is_hls_file (Fs.name e) then
        if Fs.removable e then sweep rest else (e :: rest, Some Fs.EPERM)
      else
        let (kept, err) := sweep rest in (e :: kept, err)
  end.

Definition other_file (e : Fs.DirEntry) : bool :=
  negb (is_hls_file (Fs.name e)).

(** Every HLS file of the listing can be removed. *)
Definition deletable (d : Fs.Dir) : Prop :=
  Forall (fun e => is_hls_file (Fs.name e) = true -> Fs.removable e = true) d.

(** [streamState] as [stopRTSPStream] leaves it. *)
Definition idle (s : StreamState) : Prop :=
  isRunning s = false /\ ffmpegProcess s = None
  /\ rtspUrl s = None /\ startTime s = None.

(** The handle is set exactly when the job is marked as running. *)
Definition handle_consistent (s : StreamState) : Prop :=
  ffmpegProcess s <> None <-> isRunning s = true.

Definition ACK : Api.Response :=
  {| Api.status := 200; Api.body := Api.Stopped |}.

Definition seg (file : string) (ok : bool) : Fs.DirEntry :=
  {| Fs.name := file; Fs.removable := ok |}.

(** A freshly booted server over a given segment directory. *)
Definition idle_over (d : Fs.Dir) : World := Server.boot (Some d).

(** The traces on which the probe answers [true], for a child that has
    or has not produced output yet. *)
Definition succeeds (had_output : bool) (trace : list (Z * Probe.ChildEvent))
  : Prop :=
  exists pre t post,
    trace = pre ++ (t, Probe.CloseEvent (Some 0)) :: post
    /\ t < Probe.TIMEOUT_MS
    /\ Forall (fun te => fst te < Probe.TIMEOUT_MS /\ Probe.is_data (snd te) = true) pre
    /\ (had_output = true \/ pre <> []).

(** The record of the child of rank [p]. *)
Definition job_of (p : pid) (w : World) : option Job :=
  nth_error (jobs w) p.

(** The record of a child right after [startRTSPStream] spawned it at
    time [t]. *)
Definition fresh_job (url : string) (t : Z) : Job :=
  {| args := ffmpegArgs url; signals := []; promise := Pending;
     graceDue := t + GRACE_MS; graceFired := false |}.

(** A server whose probe has found FFmpeg, over an empty directory. *)
Definition capable_server : World :=
  Server.handle (Server.ProbeSettled true) (Server.boot (Some [])).

Definition CAMERA : string := "rtsp://camera/live".

(** The same server after a start request at 10 ms whose child is
    still alive when the grace timer has run. *)
Definition running_server : World :=
  Server.run [(10, Server.PostStart (Some CAMERA)); (3010, Server.GetStatus)]
    capable_server.

End Descr.

(** ** The record store: [data.json] and the overlay and settings routes *)

Module Store.

(** A JSON value as [express.json()] and [JSON.parse] produce it.  A
    number is kept as the decimal [mantissa * 10 ^ exponent]; the store
    only carries numbers, it never computes with them. *)
#[warnings="-register-all"]
Inductive Json :=
| JNull
| JBool (b : bool)
| JNumber (mantissa exponent : Z)
| JString (s : string)
| JArray (items : list Json)
| JObject (fields : list (string * Json)).

(** A JavaScript object, its own properties in order. *)
Definition Obj := list (string * Json).

(** [o[key]]; [None] is [undefined]. *)
Fixpoint get (key : string) (o : Obj) : option Json :=
  match o with
  | [] => None
  | (k, v) :: rest => if String.eqb k key then Some v else get key rest
  end.

(** [o[key] = v]: an own property keeps its place, a new one goes last. *)
Fixpoint set (key : string) (v : Json) (o : Obj) : Obj :=
  match o with
  | [] => [(key, v)]
  | (k, x) :: rest =>
      if String.eqb k key then (k, v) :: rest else (k, x) :: set key v rest
  end.

(** [{ ...a, ...b }] *)
Definition spread (a b : Obj) : Obj :=
  fold_left (fun acc kv => set (fst kv) (snd kv) acc) b a.

(** The parsed content of [data.json]. *)
Record Data := { overlays : list Obj; settings : Obj }.

(** The file [DATA_FILE]: [content] is [None] when the file is missing or
    does not parse to the two collections, so that [readData] or the use
    of its result throws; [writable] is [false] when [fs.writeFileSync]
    throws.  What is written is read back as it was: the values are JSON
    values. *)
Record DataFile := { content : option Data; writable : bool }.

(** The settings written when the file does not exist at start-up. *)
Definition initialData : Data :=
  {| overlays := [];
     settings :=
       [ ("rtspUrl",
          JString "rtsp://wowzaec2demo.streamlock.net/vod/mp4:BigBuckBunny_115k.mp4");
         ("volume", JNumber 5 (-1));
         ("autoplay", JBool false) ] |}.

(** [readData()] *)
Definition readData (f : DataFile) : option Data := content f.

(** [writeData(data)]; [None] is an exception. *)
Definition writeData (d : Data) (f : DataFile) : option DataFile :=
  if writable f then Some {| content := Some d; writable := true |}
  else None.

Inductive Body :=
| OverlayList (items : list Obj)
| Document (o : Obj)
| Message (text : string)
| Error (text : string).

Record Response := { status : nat; body : Body }.

(** [o.id === req.params.id], the route parameter being a string. *)
Definition has_id (id : string) (o : Obj) : bool :=
  match get "id" o with
  | Some (JString s) => String.eqb s id
  | _ => false
  end.

(** [array.findIndex(pred)]; [None] is [-1]. *)
Fixpoint findIndex {A : Type} (pred : A -> bool) (l : list A) : option nat :=
  match l with
  | [] => None
  | x :: rest =>
      if pred x then Some O else option_map S (findIndex pred rest)
  end.

(** [array.splice(index, 1)] *)
Fixpoint splice1 {A : Type} (index : nat) (l : list A) : list A :=
  match l, index with
  | [], _ => []
  | _ :: rest, O => rest
  | x :: rest, S i => x :: splice1 i rest
  end.

(** [app.get('/api/overlays', ...)] *)
Definition get_overlays (f : DataFile) : Response :=
  match readData f with
  | Some data => {| status := 200; body := OverlayList (overlays data) |}
  | None => {| status := 500; body := Error "Failed to retrieve overlays" |}
  end.

(** [app.get('/api/overlays/:id', ...)] *)
Definition get_overlay (id : string) (f : DataFile) : Response :=
  match readData f with
  | Some data =>
      match find (has_id id) (overlays data) with
      | Some overlay => {| status := 200; body := Document overlay |}
      | None => {| status := 404; body := Error "Overlay not found" |}
      end
  | None => {| status := 500; body := Error "Failed to retrieve overlay" |}
  end.

(** The object literal [{ id: ..., ...req.body, createdAt: ... }]; [now]
    is [Date.now()] and [iso] is [new Date().toISOString()]. *)
Definition newOverlay (reqBody : Obj) (now : Z) (iso : string) : Obj :=
  set "createdAt" (JString iso)
    (spread [("id", JString (Js.number_toString now))] reqBody).

(** [app.post('/api/overlays', ...)] *)
Definition post_overlay (reqBody : Obj) (now : Z) (iso : string)
    (f : DataFile) : DataFile * Response :=
  let failed := (f, {| status := 500; body := Error "Failed to create overlay" |}) in
  match readData f with
  | Some data =>
      let created := newOverlay reqBody now iso in
      let data' := {| overlays := overlays data ++ [created];
                      settings := settings data |} in
      match writeData data' f with
      | Some f' => (f', {| status := 201; body := Document created |})
      | None => failed
      end
  | None => failed
  end.

(** [app.put('/api/overlays/:id', ...)] *)
Definition put_overlay (id : string) (reqBody : Obj) (f : DataFile)
    : DataFile * Response :=
  let failed := (f, {| status := 500; body := Error "Failed to update overlay" |}) in
  match readData f with
  | Some data =>
      match findIndex (has_id id) (overlays data) with
      | None => (f, {| status := 404; body := Error "Overlay not found" |})
      | Some index =>
          let updated :=
            Supervisor.alter (fun old => spread old reqBody) index
              (overlays data) in
          let data' := {| overlays := updated; settings := settings data |} in
          match writeData data' f with
          | Some f' =>
              match nth_error updated index with
              | Some o => (f', {| status := 200; body := Document o |})
              | None => failed
              end
          | None => failed
          end
      end
  | None => failed
  end.

(** [app.delete('/api/overlays/:id', ...)] *)
Definition delete_overlay (id : string) (f : DataFile)
    : DataFile * Response :=
  let failed := (f, {| status := 500; body := Error "Failed to delete overlay" |}) in
  match readData f with
  | Some data =>
      match findIndex (has_id id) (overlays data) with
      | None => (f, {| status := 404; body := Error "Overlay not found" |})
      | Some index =>
          let data' := {| overlays := splice1 index (overlays data);
                          settings := settings data |} in
          match writeData data' f with
          | Some f' =>
              (f', {| status := 200;
                      body := Message "Overlay deleted successfully" |})
          | None => failed
          end
      end
  | None => failed
  end.

(** [app.get('/api/settings', ...)] *)
Definition get_settings (f : DataFile) : Response :=
  match readData f with
  | Some data => {| status := 200; body := Document (settings data) |}
  | None => {| status := 500; body := Error "Failed to retrieve settings" |}
  end.

(** [app.put('/api/settings', ...)] *)
Definition put_settings (reqBody : Obj) (f : DataFile)
    : DataFile * Response :=
  let failed := (f, {| status := 500; body := Error "Failed to update settings" |}) in
  match readData f with
  | Some data =>
      let data' := {| overlays := overlays data;
                      settings := spread (settings data) reqBody |} in
      match writeData data' f with
      | Some f' =>
          (f', {| status := 200; body := Document (settings data') |})
      | None => failed
      end
  | None => failed
  end.

End Store.

(** ** Further descriptions *)

Module Notions.
Import Supervisor.

(** The events that make the server spawn a child: a start request that
    carries an address, on a server that has the capability. *)
Definition spawns (ev : Server.Event) (w : World) : bool :=
  match ev with
  | Server.PostStart body =>
      Js.truthy body && hasFFmpeg (streamState w)
  | _ => false
  end.

(** The events that make the server send [SIGTERM] to the child it
    holds: a stop request, and a start request that spawns. *)
Definition terminates (ev : Server.Event) (w : World) : bool :=
  match ev with
  | Server.PostStop => true
  | _ => spawns ev w
  end.

(** The child of rank [q] is the one [streamState.ffmpegProcess] refers
    to. *)
Definition holds (w : World) (q : pid) : bool :=
  match ffmpegProcess (streamState w) with
  | Some p => Nat.eqb p q
  | None => false
  end.

(** How the record of one child can differ between an earlier and a later
    state of the server. *)
Definition job_evolves (j j' : Job) : Prop :=
  args j' = args j
  /\ graceDue j' = graceDue j
  /\ (promise j <> Pending -> promise j' = promise j)
  /\ exists more, signals j' = signals j ++ more.

(** The string has no occurrence of the character. *)
Fixpoint lacks (c : Ascii.ascii) (s : string) : bool :=
  match s with
  | EmptyString => true
  | String x rest => negb (Ascii.eqb x c) && lacks c rest
  end.

(** An object as a parser yields it: no property name twice. *)
Definition well_formed (o : Store.Obj) : Prop := NoDup (map fst o).

(** A data file that can be read and written. *)
Definition file_with (d : Store.Data) : Store.DataFile :=
  {| Store.content := Some d; Store.writable := true |}.

(** The handle names a child that was launched for the address the job
    record shows, and the record is marked as running with a start time. *)
Definition held_matches (w : World) : Prop :=
  forall p, ffmpegProcess (streamState w) = Some p ->
    exists j url t,
      Descr.job_of p w = Some j
      /\ args j = ffmpegArgs url
      /\ rtspUrl (streamState w) = Some url
      /\ startTime (streamState w) = Some t
      /\ isRunning (streamState w) = true.

(** At time [now] the record of a child is sound about its timer: a timer
    that has run was due, and a start promise whose timer is due is
    settled. *)
Definition timer_sound (now : Z) (j : Job) : Prop :=
  (graceFired j = true -> graceDue j <= now)
  /\ (graceDue j <= now -> promise j <> Pending).

(** The answer of the overlay routes to an [id] they do not find. *)
Definition NOT_FOUND : Store.Response :=
  {| Store.status := 404; Store.body := Store.Error "Overlay not found" |}.

End Notions.

(** * Properties *)

(** Expose the callback that an event at a given time runs. *)
Ltac deliver_event :=
  unfold Server.deliver; simpl fst; simpl snd; unfold Server.handle.

(** ** Strings *)

Section StringFacts.

Lemma substring_all (s : string) :
  substring 0 (String.length s) s = s.
Proof.
  induction s as [|c s IH]; simpl; [reflexivity | now rewrite IH].
Qed.

Lemma substring_after (pre suf : string) :
  substring (String.length pre) (String.length suf) (pre ++ suf) = suf.
Proof.
  induction pre as [|c pre IH]; simpl.
  - apply substring_all.
  - exact IH.
Qed.

Lemma substring_split (s : string) :
  forall m, (m <= String.length s)%nat ->
    s = (substring 0 m s ++ substring m (String.length s - m) s)%string.
Proof.
  induction s as [|c s IH]; intros m Hm; simpl in *.
  - destruct m; reflexivity.
  - destruct m as [|m]; simpl.
    + now rewrite substring_all.
    + f_equal. apply IH. lia.
Qed.

Lemma length_append (a b : string) :
  String.length (a ++ b) = (String.length a + String.length b)%nat.
Proof. induction a as [|c a IH]; simpl; [reflexivity | now rewrite IH]. Qed.

(** [endsWith] is true exactly for the strings that have the given end. *)
Lemma endsWith_spec (s suf : string) :
  Js.endsWith s suf = true <-> exists pre, s = (pre ++ suf)%string.
Proof.
  unfold Js.endsWith. rewrite andb_true_iff, Nat.leb_le, String.eqb_eq.
  split.
  - intros [Hle Hsub].
    exists (substring 0 (String.length s - String.length suf) s).
    pose proof (substring_split s (String.length s - String.length suf))
      as Hsplit.
    replace (String.length s - (String.length s - String.length suf))%nat
      with (String.length suf) in Hsplit by lia.
    rewrite Hsub in Hsplit. apply Hsplit. lia.
  - intros [pre ->]. rewrite length_append. split; [lia|].
    replace (String.length pre + String.length suf - String.length suf)%nat
      with (String.length pre) by lia.
    apply substring_after.
Qed.

End StringFacts.

(** ** The clean-up of the segment directory *)

Section Cleanup.
Import Supervisor Descr.

Lemma is_hls_file_spec (file : string) :
  is_hls_file file = true <->
  exists pre, file = (pre ++ ".m3u8")%string \/ file = (pre ++ ".ts")%string.
Proof.
  unfold is_hls_file. rewrite orb_true_iff, !endsWith_spec.
  split.
  - intros [[pre H] | [pre H]]; exists pre; auto.
  - intros [pre [H | H]]; [left | right]; exists pre; exact H.
Qed.

(** Removing an HLS file that sits behind entries of other names. *)
Lemma unlinkSync_behind (pre : Fs.Dir) (e : Fs.DirEntry) (rest : Fs.Dir) :
  Forall (fun x => is_hls_file (Fs.name x) = false) pre ->
  is_hls_file (Fs.name e) = true ->
  Fs.unlinkSync (Fs.name e) (pre ++ e :: rest)
  = if Fs.removable e then Fs.Ok (pre ++ rest) else Fs.Throw Fs.EPERM.
Proof.
  intros Hpre He. induction Hpre as [|x pre Hx _ IH]; simpl.
  - rewrite String.eqb_refl. reflexivity.
  - destruct (String.eqb_spec (Fs.name x) (Fs.name e)) as [Heq | _].
    + congruence.
    + rewrite IH. destruct (Fs.removable e); reflexivity.
Qed.

Lemma unlink_each_sweep (d : Fs.Dir) :
  forall pre,
    Forall (fun x => is_hls_file (Fs.name x) = false) pre ->
    unlink_each (map Fs.name d) (pre ++ d)
    = (pre ++ fst (sweep d), snd (sweep d)).
Proof.
  induction d as [|e rest IH]; intros pre Hpre; simpl.
  - reflexivity.
  - destruct (is_hls_file (Fs.name e)) eqn:He.
    + rewrite unlinkSync_behind by assumption.
      destruct (Fs.removable e); [apply IH; assumption | reflexivity].
    + replace (pre ++ e :: rest) with ((pre ++ [e]) ++ rest)
        by (rewrite <- app_assoc; reflexivity).
      rewrite IH by (apply Forall_app; split; [assumption | repeat constructor; assumption]).
      destruct (sweep rest) as [kept err]; simpl.
      rewrite <- app_assoc. reflexivity.
Qed.

Lemma cleanup_sweep (w : World) :
  cleanup w =
  match hls w with
  | None => console_error CLEANUP_ERROR w
  | Some d =>
      match snd (sweep d) with
      | None => with_hls (Some (fst (sweep d))) w
      | Some _ =>
          console_error CLEANUP_ERROR (with_hls (Some (fst (sweep d))) w)
      end
  end.
Proof.
  unfold cleanup. destruct (hls w) as [d|]; simpl; [|reflexivity].
  pose proof (unlink_each_sweep d [] (Forall_nil _)) as H.
  simpl in H. rewrite H.
  destruct (snd (sweep d)); reflexivity.
Qed.

Lemma hls_cleanup (w : World) :
  hls (cleanup w) = option_map (fun d => fst (sweep d)) (hls w).
Proof.
  rewrite cleanup_sweep. destruct (hls w) as [d|] eqn:E; simpl.
  - destruct (snd (sweep d)); reflexivity.
  - exact E.
Qed.

Lemma hls_stop (w : World) :
  hls (stopRTSPStream w) = option_map (fun d => fst (sweep d)) (hls w).
Proof.
  unfold stopRTSPStream. rewrite hls_cleanup.
  destruct (ffmpegProcess (streamState w)); reflexivity.
Qed.

Lemma console_stop (w : World) :
  console (stopRTSPStream w) =
  match hls w with
  | None => console w ++ [CLEANUP_ERROR]
  | Some d => match snd (sweep d) with
              | None => console w
              | Some _ => console w ++ [CLEANUP_ERROR]
              end
  end.
Proof.
  unfold stopRTSPStream. rewrite cleanup_sweep.
  destruct (ffmpegProcess (streamState w)); simpl;
    destruct (hls w) as [d|]; simpl; try reflexivity;
    destruct (snd (sweep d)); reflexivity.
Qed.

Lemma streamState_cleanup (w : World) :
  streamState (cleanup w) = streamState w.
Proof.
  rewrite cleanup_sweep. destruct (hls w) as [d|]; simpl; [|reflexivity].
  destruct (snd (sweep d)); reflexivity.
Qed.

Lemma jobs_cleanup (w : World) : jobs (cleanup w) = jobs w.
Proof.
  rewrite cleanup_sweep. destruct (hls w) as [d|]; simpl; [|reflexivity].
  destruct (snd (sweep d)); reflexivity.
Qed.

Lemma streamState_stop (w : World) :
  streamState (stopRTSPStream w) =
  {| isRunning := false; rtspUrl := None; startTime := None;
     ffmpegProcess := None; hasFFmpeg := hasFFmpeg (streamState w) |}.
Proof.
  unfold stopRTSPStream. rewrite streamState_cleanup.
  destruct (ffmpegProcess (streamState w)) eqn:H; simpl; [reflexivity|].
  rewrite H. reflexivity.
Qed.

Lemma jobs_stop (w : World) :
  jobs (stopRTSPStream w) =
  match ffmpegProcess (streamState w) with
  | Some p => alter (signalled SIGTERM) p (jobs w)
  | None => jobs w
  end.
Proof.
  unfold stopRTSPStream. rewrite jobs_cleanup.
  destruct (ffmpegProcess (streamState w)); reflexivity.
Qed.

(** *** What [sweep] keeps and what it drops *)

Lemma sweep_keeps_other (d : Fs.Dir) :
  filter other_file (fst (sweep d)) = filter other_file d.
Proof.
  induction d as [|e rest IH]; simpl; [reflexivity|].
  unfold other_file at 2. destruct (is_hls_file (Fs.name e)) eqn:He; simpl.
  - destruct (Fs.removable e); simpl; [exact IH|].
    unfold other_file at 1. rewrite He. reflexivity.
  - destruct (sweep rest) as [kept err]; simpl in *.
    unfold other_file at 1. rewrite He. simpl. now rewrite IH.
Qed.

Lemma sweep_incl (d : Fs.Dir) : incl (fst (sweep d)) d.
Proof.
  induction d as [|e rest IH]; simpl; [apply incl_refl|].
  destruct (is_hls_file (Fs.name e)).
  - destruct (Fs.removable e); [apply incl_tl; exact IH | apply incl_refl].
  - destruct (sweep rest) as [kept err]; simpl in *.
    apply incl_cons; [left; reflexivity | apply incl_tl; exact IH].
Qed.

Lemma sweep_drops_hls_only (d : Fs.Dir) (e : Fs.DirEntry) :
  In e d -> ~ In e (fst (sweep d)) -> is_hls_file (Fs.name e) = true.
Proof.
  induction d as [|x rest IH]; simpl; [contradiction|].
  destruct (is_hls_file (Fs.name x)) eqn:Hx.
  - destruct (Fs.removable x).
    + intros [-> | Hin] Hout; [exact Hx | exact (IH Hin Hout)].
    + intros Hin Hout. exfalso. apply Hout. exact Hin.
  - destruct (sweep rest) as [kept err]; simpl in *.
    intros [-> | Hin] Hout.
    + exfalso. apply Hout. left; reflexivity.
    + apply IH; [exact Hin | intro H; apply Hout; right; exact H].
Qed.

Lemma sweep_deletable (d : Fs.Dir) :
  deletable d -> sweep d = (filter other_file d, None).
Proof.
  induction 1 as [|e rest He _ IH]; simpl; [reflexivity|].
  unfold other_file at 1.
  destruct (is_hls_file (Fs.name e)) eqn:Hh; simpl.
  - rewrite (He eq_refl). exact IH.
  - rewrite IH. reflexivity.
Qed.

Lemma sweep_blocked (pre : Fs.Dir) (e : Fs.DirEntry) (post : Fs.Dir) :
  deletable pre ->
  is_hls_file (Fs.name e) = true -> Fs.removable e = false ->
  sweep (pre ++ e :: post)
  = (filter other_file pre ++ e :: post, Some Fs.EPERM).
Proof.
  intros Hpre He Hr. induction Hpre as [|x pre Hx _ IH]; simpl.
  - rewrite He, Hr. reflexivity.
  - unfold other_file at 1.
    destruct (is_hls_file (Fs.name x)) eqn:Hh; simpl.
    + rewrite (Hx eq_refl). exact IH.
    + rewrite IH. reflexivity.
Qed.

Lemma sweep_again (d : Fs.Dir) : sweep (fst (sweep d)) = sweep d.
Proof.
  induction d as [|e rest IH]; simpl; [reflexivity|].
  destruct (is_hls_file (Fs.name e)) eqn:He.
  - destruct (Fs.removable e) eqn:Hr; [exact IH|].
    simpl. rewrite He, Hr. reflexivity.
  - destruct (sweep rest) as [kept err]; simpl in *.
    rewrite He, IH. reflexivity.
Qed.

Lemma filter_other_nil (d : Fs.Dir) :
  (forall e, In e d -> is_hls_file (Fs.name e) = true) ->
  filter other_file d = [].
Proof.
  induction d as [|e rest IH]; intros H; simpl; [reflexivity|].
  unfold other_file at 1. rewrite (H e (or_introl eq_refl)). simpl.
  apply IH. intros x Hx. apply H. right; exact Hx.
Qed.

End Cleanup.

(** ** Stopping a stream *)

Section Stop.
Import Supervisor Descr.

(** C10: [stopRTSPStream] removes nothing but entries whose name ends in
    [.m3u8] or [.ts]: the entries of any other name are the same, in the
    same order, after the call; no entry is added; and an entry that is
    gone had a name with one of the two endings. *)
Theorem stop_frames_other_files (w : World) :
  option_map (filter other_file) (hls (stopRTSPStream w))
  = option_map (filter other_file) (hls w)
  /\ (hls w = None <-> hls (stopRTSPStream w) = None)
  /\ forall d d' e,
       hls w = Some d -> hls (stopRTSPStream w) = Some d' ->
       (In e d' -> In e d)
       /\ (In e d -> ~ In e d' ->
           exists pre, Fs.name e = (pre ++ ".m3u8")%string
                       \/ Fs.name e = (pre ++ ".ts")%string).
Proof.
  rewrite hls_stop. destruct (hls w) as [d0|]; simpl.
  - rewrite sweep_keeps_other. split; [reflexivity|].
    split; [split; discriminate|].
    intros d d' e Hd Hd'. injection Hd as <-. injection Hd' as <-.
    split.
    + apply sweep_incl.
    + intros Hin Hout. apply is_hls_file_spec.
      now apply sweep_drops_hls_only with (d := d0).
  - split; [reflexivity|]. split; [tauto|]. discriminate.
Qed.

(** A stop over a directory with a playlist, a segment and a text file. *)
Lemma stop_frames_other_files_witness :
  let w := idle_over [seg "stream.m3u8" true; seg "notes.txt" true;
                      seg "segment000.ts" true] in
  hls (stopRTSPStream w) = Some [seg "notes.txt" true]
  /\ (In (seg "notes.txt" true) [seg "notes.txt" true] ->
      In (seg "notes.txt" true)
        [seg "stream.m3u8" true; seg "notes.txt" true;
         seg "segment000.ts" true]).
Proof.
  intro w. split; [reflexivity|].
  exact (proj1 (proj2 (proj2 (stop_frames_other_files w)) _ _
                  (seg "notes.txt" true) eq_refl eq_refl)).
Defined.

(** C7, as the code has it: the stop route always acknowledges, whatever
    happens to the files; when every HLS file of the directory can be
    removed they are all removed and nothing is logged; when the removal
    of an HLS file throws, the error is logged once and the clean-up ends
    there: the HLS files listed before it are gone, that file and every
    entry listed after it stay. *)
Theorem stop_cleanup_ends_at_first_error (w : World) (d : Fs.Dir)
    (Hd : hls w = Some d) :
  snd (Api.post_stop w) = ACK
  /\ (deletable d ->
      hls (stopRTSPStream w) = Some (filter other_file d)
      /\ console (stopRTSPStream w) = console w)
  /\ (forall pre e post,
        d = pre ++ e :: post -> deletable pre ->
        is_hls_file (Fs.name e) = true -> Fs.removable e = false ->
        hls (stopRTSPStream w) = Some (filter other_file pre ++ e :: post)
        /\ console (stopRTSPStream w) = console w ++ [CLEANUP_ERROR]).
Proof.
  split; [reflexivity|]. rewrite hls_stop, console_stop, Hd. simpl. split.
  - intros Hdel. rewrite (sweep_deletable d Hdel). split; reflexivity.
  - intros pre e post -> Hpre He Hr.
    rewrite (sweep_blocked pre e post Hpre He Hr). split; reflexivity.
Qed.

(** A stop over a directory whose second segment cannot be removed. *)
Lemma stop_cleanup_ends_at_first_error_witness :
  let d := [seg "segment000.ts" true; seg "segment001.ts" false;
            seg "stream.m3u8" true] in
  snd (Api.post_stop (idle_over d)) = ACK
  /\ hls (stopRTSPStream (idle_over d))
     = Some [seg "segment001.ts" false; seg "stream.m3u8" true]
  /\ console (stopRTSPStream (idle_over d)) = [CLEANUP_ERROR].
Proof.
  intro d.
  destruct (stop_cleanup_ends_at_first_error (idle_over d) d eq_refl)
    as [Hack [_ Hblocked]].
  split; [exact Hack|].
  apply (Hblocked [seg "segment000.ts" true] (seg "segment001.ts" false)
           [seg "stream.m3u8" true] eq_refl).
  - repeat constructor.
  - reflexivity.
  - reflexivity.
Defined.

(** C7 as stated fails: a segment that cannot be removed keeps the
    removable segment listed after it from being deleted. *)
Lemma stop_error_keeps_later_files :
  let d := [seg "segment000.ts" false; seg "segment001.ts" true] in
  Fs.existsSync "segment001.ts" (hls (stopRTSPStream (idle_over d))) = true
  /\ hls (stopRTSPStream (idle_over d)) = Some d.
Proof. split; reflexivity. Qed.

(** C6, as the code has it: two stops in a row are both acknowledged and
    both leave [streamState] idle; the second one changes neither
    [streamState], nor the directory, nor the children; and when every
    HLS file can be removed, the directory holds after each call exactly
    the entries of other names, so it is empty when it held HLS files
    only. *)
Theorem stop_twice (w : World) :
  let w1 := fst (Api.post_stop w) in
  let w2 := fst (Api.post_stop w1) in
  snd (Api.post_stop w) = ACK /\ snd (Api.post_stop w1) = ACK
  /\ idle (streamState w1) /\ idle (streamState w2)
  /\ streamState w2 = streamState w1
  /\ hls w2 = hls w1
  /\ jobs w2 = jobs w1
  /\ forall d, hls w = Some d -> deletable d ->
       hls w1 = Some (filter other_file d)
       /\ hls w2 = Some (filter other_file d)
       /\ ((forall e, In e d -> is_hls_file (Fs.name e) = true) ->
           hls w1 = Some [] /\ hls w2 = Some []).
Proof.
  simpl.
  assert (Hhls : hls (stopRTSPStream (stopRTSPStream w))
                 = hls (stopRTSPStream w)).
  { rewrite (hls_stop (stopRTSPStream w)), hls_stop.
    destruct (hls w) as [d|]; simpl; [|reflexivity].
    now rewrite sweep_again. }
  assert (Hidle : forall v, idle (streamState (stopRTSPStream v)))
    by (intros v; rewrite streamState_stop; repeat split).
  split; [reflexivity|]. split; [reflexivity|].
  split; [apply Hidle|]. split; [apply Hidle|].
  split; [rewrite !streamState_stop; reflexivity|].
  split; [exact Hhls|].
  split.
  { rewrite (jobs_stop (stopRTSPStream w)), streamState_stop. reflexivity. }
  intros d Hd Hdel. rewrite Hhls, hls_stop, Hd. simpl.
  rewrite (sweep_deletable d Hdel). simpl.
  split; [reflexivity|]. split; [reflexivity|].
  intros Honly. rewrite (filter_other_nil d Honly). split; reflexivity.
Qed.

(** Two stops over a directory that holds a playlist and a segment. *)
Lemma stop_twice_witness :
  let d := [seg "stream.m3u8" true; seg "segment000.ts" true] in
  hls (fst (Api.post_stop (idle_over d))) = Some []
  /\ hls (fst (Api.post_stop (fst (Api.post_stop (idle_over d))))) = Some [].
Proof.
  intro d.
  destruct (stop_twice (idle_over d)) as (_ & _ & _ & _ & _ & _ & _ & H).
  destruct (H d eq_refl) as (_ & _ & Hempty).
  - repeat constructor.
  - apply Hempty. intros e [<- | [<- | []]]; reflexivity.
Defined.

(** C6 as stated fails: a file whose name has neither ending, here the
    temporary playlist a killed FFmpeg can leave behind, is still in the
    directory after two stops. *)
Lemma stop_twice_not_empty :
  let w := idle_over [seg "stream.m3u8" true; seg "stream.m3u8.tmp" true] in
  hls (fst (Api.post_stop (fst (Api.post_stop w))))
  = Some [seg "stream.m3u8.tmp" true]
  /\ hls (fst (Api.post_stop (fst (Api.post_stop w)))) <> Some [].
Proof. split; [reflexivity | discriminate]. Qed.

End Stop.

(** ** The job record along a run of the server *)

Section Invariant.
Import Supervisor Descr Server.

Lemma streamState_reject p e w :
  streamState (reject p e w) = streamState w.
Proof. reflexivity. Qed.

Lemma streamState_advance t w : streamState (advance t w) = streamState w.
Proof. reflexivity. Qed.

Lemma streamState_on_close p code w :
  streamState (on_close p code w) = clear_running (streamState w).
Proof.
  unfold on_close. destruct code as [c|]; [|reflexivity].
  destruct (negb (c =? 0)); reflexivity.
Qed.

Lemma streamState_start url w :
  hasFFmpeg (streamState w) = true ->
  streamState (fst (startRTSPStream url w))
  = {| isRunning := true; rtspUrl := Some url;
       startTime := Some (clock w);
       ffmpegProcess := Some (List.length (jobs w));
       hasFFmpeg := true |}.
Proof.
  intros Hcap. unfold startRTSPStream. rewrite Hcap. simpl.
  destruct (ffmpegProcess (streamState w)) as [old|]; simpl.
  - rewrite Hcap. f_equal.
    f_equal. clear. revert old.
    induction (jobs w) as [|j js IH]; intros [|old]; simpl; auto.
  - rewrite Hcap. reflexivity.
Qed.

(** The state after the start route. *)
Lemma fst_post_start (body : option string) (w : World) :
  fst (Api.post_start body w)
  = match body with
    | Some url =>
        if Js.truthy body && hasFFmpeg (streamState w)
        then fst (startRTSPStream url w) else w
    | None => w
    end.
Proof.
  destruct body as [url|]; [|reflexivity].
  unfold Api.post_start.
  destruct (Js.truthy (Some url)); simpl; [|reflexivity].
  destruct (hasFFmpeg (streamState w)) eqn:Hcap; simpl; [|reflexivity].
  unfold startRTSPStream. rewrite Hcap. reflexivity.
Qed.

(** Each callback and each route keeps the handle and the flag in step. *)
Lemma handle_consistent_step (te : Z * Event) (w : World) :
  handle_consistent (streamState w) ->
  handle_consistent (streamState (deliver te w)).
Proof.
  destruct te as [t ev]. unfold deliver; simpl fst; simpl snd.
  rewrite <- (streamState_advance t w).
  generalize (advance t w) as w'. clear w.
  unfold handle_consistent. intros w' Hinv.
  destruct ev as [capable | body | | | p message | p code | d];
    unfold handle.
  - exact Hinv.
  - rewrite fst_post_start. destruct body as [url|]; [|exact Hinv].
    destruct (Js.truthy (Some url)); [|exact Hinv].
    destruct (hasFFmpeg (streamState w')) eqn:Hcap; [|exact Hinv].
    simpl andb. cbv iota. rewrite (streamState_start url w' Hcap).
    simpl. split; [reflexivity | discriminate].
  - unfold Api.post_stop, fst. rewrite streamState_stop.
    simpl. split; [congruence | discriminate].
  - exact Hinv.
  - simpl. split; [congruence | discriminate].
  - rewrite streamState_on_close. simpl. split; [congruence | discriminate].
  - exact Hinv.
Qed.

(** C3: in every state the server can reach (whatever requests, child
    exits, child errors and timers have occurred and in whatever
    order), [streamState.ffmpegProcess] is non-null if and only if
    [streamState.isRunning] is true, the flag that stands for the
    Starting and Running states. *)
Theorem handle_iff_running (d : option Fs.Dir) (trace : list (Z * Event)) :
  handle_consistent (streamState (run trace (boot d))).
Proof.
  unfold run.
  assert (H0 : handle_consistent (streamState (boot d)))
    by (split; simpl; [intros H; now elim H | discriminate]).
  revert H0. generalize (boot d).
  induction trace as [|te trace IH]; intros w Hw; simpl.
  - exact Hw.
  - apply IH. apply handle_consistent_step. exact Hw.
Qed.

End Invariant.

(** ** The routes *)

Section Routes.
Import Supervisor Descr Server.

Lemma length_alter {A : Type} (f : A -> A) (l : list A) :
  forall i, List.length (alter f i l) = List.length l.
Proof.
  induction l as [|x l IH]; intros [|i]; simpl; auto.
Qed.

Lemma jobs_on_close_length p code w :
  List.length (jobs (on_close p code w)) = List.length (jobs w).
Proof.
  unfold on_close. destruct code as [c|]; [|reflexivity].
  destruct (negb (c =? 0)); [|reflexivity].
  simpl. apply length_alter.
Qed.

(** Without the capability no event other than a favourable probe result
    spawns a child or sets the capability. *)
Lemma step_without_ffmpeg (te : Z * Event) (w : World) :
  hasFFmpeg (streamState w) = false ->
  snd te <> ProbeSettled true ->
  hasFFmpeg (streamState (deliver te w)) = false
  /\ List.length (jobs (deliver te w)) = List.length (jobs w).
Proof.
  destruct te as [t ev]. unfold deliver; simpl fst; simpl snd.
  intros Hcap Hev.
  assert (Hlen : List.length (jobs (advance t w)) = List.length (jobs w))
    by (simpl; apply length_map).
  rewrite <- Hlen. rewrite <- (streamState_advance t w) in Hcap.
  clear Hlen. generalize dependent (advance t w). clear w. intros w Hcap.
  destruct ev as [capable | body | | | p message | p code | d];
    unfold handle.
  - destruct capable; [congruence | split; reflexivity].
  - rewrite fst_post_start. destruct body as [url|]; [|split; [exact Hcap | reflexivity]].
    rewrite Hcap, andb_false_r. split; [exact Hcap | reflexivity].
  - unfold Api.post_stop, fst. rewrite streamState_stop, jobs_stop.
    split; [exact Hcap|].
    destruct (ffmpegProcess (streamState w)); [apply length_alter | reflexivity].
  - split; [exact Hcap | reflexivity].
  - split; [exact Hcap | simpl; apply length_alter].
  - rewrite streamState_on_close. split; [exact Hcap | apply jobs_on_close_length].
  - split; [exact Hcap | reflexivity].
Qed.

(** C2: while [hasFFmpeg] is false, [startRTSPStream] throws the
    capability error at once, for every address, and leaves the whole
    server state as it is; the start route changes nothing either and
    answers with an error at once, the capability error whenever the
    request carries an address; and along any run in which the probe
    does not report the capability, the number of spawned children
    never changes. *)
Theorem no_spawn_without_ffmpeg (w : World)
    (Hcap : hasFFmpeg (streamState w) = false) :
  (forall url, startRTSPStream url w = (w, Thrown NO_FFMPEG_MESSAGE))
  /\ (forall body,
        fst (Api.post_start body w) = w
        /\ exists r, snd (Api.post_start body w) = Api.Sent r
                     /\ (400 <= Api.status r)%nat
                     /\ (Js.truthy body = true ->
                         r = {| Api.status := 500;
                                Api.body := Api.FFmpegNotAvailable |}))
  /\ (forall trace,
        Forall (fun te => snd te <> ProbeSettled true) trace ->
        List.length (jobs (run trace w)) = List.length (jobs w)).
Proof.
  split; [|split].
  - intros url. unfold startRTSPStream. rewrite Hcap. reflexivity.
  - intros body. split.
    + rewrite fst_post_start. destruct body as [url|]; [|reflexivity].
      rewrite Hcap, andb_false_r. reflexivity.
    + unfold Api.post_start. destruct body as [url|].
      * destruct (Js.truthy (Some url)); simpl.
        -- rewrite Hcap. simpl. eexists. split; [reflexivity|].
           split; [simpl; lia | reflexivity].
        -- eexists. split; [reflexivity|].
           split; [simpl; lia | discriminate].
      * eexists. split; [reflexivity|].
        split; [simpl; lia | discriminate].
  - intros trace. unfold run. revert w Hcap.
    induction trace as [|te trace IH]; intros w Hcap Htr; simpl.
    + reflexivity.
    + inversion Htr as [|? ? Hte Hrest]; subst.
      destruct (step_without_ffmpeg te w Hcap Hte) as [Hcap' Hlen].
      rewrite (IH _ Hcap' Hrest). exact Hlen.
Qed.

(** A server whose probe has not succeeded, asked to start twice. *)
Lemma no_spawn_without_ffmpeg_witness :
  let w := boot (Some []) in
  startRTSPStream "rtsp://camera/live" w = (w, Thrown NO_FFMPEG_MESSAGE)
  /\ List.length
       (jobs (run [(5, PostStart (Some "rtsp://camera/live"));
                   (9, PostStart None); (12, PostStop)] w)) = 0%nat.
Proof.
  intro w.
  destruct (no_spawn_without_ffmpeg w eq_refl) as (Hthrow & _ & Hrun).
  split; [apply Hthrow|].
  apply (Hrun [(5, PostStart (Some "rtsp://camera/live"));
               (9, PostStart None); (12, PostStop)]).
  repeat constructor; discriminate.
Defined.

(** C9: a start request whose [rtspUrl] is missing or empty is answered
    with status 400, and the server state (job record, children,
    directory) is exactly what it was. *)
Theorem start_requires_url (w : World) (body : option string)
    (Hbody : body = None \/ body = Some "") :
  Api.post_start body w
  = (w, Api.Sent {| Api.status := 400; Api.body := Api.UrlRequired |})
  /\ jobs (fst (Api.post_start body w)) = jobs w
  /\ streamState (fst (Api.post_start body w)) = streamState w.
Proof.
  destruct Hbody as [-> | ->]; repeat split; reflexivity.
Qed.

(** An empty address sent to a capable server. *)
Lemma start_requires_url_witness :
  Api.post_start (Some "") (handle (ProbeSettled true) (boot (Some [])))
  = (handle (ProbeSettled true) (boot (Some [])),
     Api.Sent {| Api.status := 400; Api.body := Api.UrlRequired |}).
Proof.
  apply (start_requires_url (handle (ProbeSettled true) (boot (Some [])))
           (Some "")).
  right. reflexivity.
Defined.

Lemma existsSync_spec (file : string) (d : Fs.Dir) :
  Fs.existsSync file (Some d) = true
  <-> exists e, In e d /\ Fs.name e = file.
Proof.
  simpl. rewrite existsb_exists.
  split; intros [e [Hin He]]; exists e; split; auto;
    now apply String.eqb_eq.
Qed.

(** C8: the status route answers 200 and leaves the server as it is;
    [isRunning] is [streamState.isRunning] and does not depend on the
    directory; [hlsAvailable] is whether [stream.m3u8] is in the
    directory at the time of the call and does not depend on
    [streamState] or on the children; and [hlsUrl] is non-null exactly
    when the playlist exists. *)
Theorem status_reads_state_and_directory (w : World) :
  exists s,
    Api.get_status w = {| Api.status := 200; Api.body := Api.Status s |}
    /\ Api.res_isRunning s = isRunning (streamState w)
    /\ Api.res_hlsAvailable s = Fs.existsSync "stream.m3u8" (hls w)
    /\ (Api.res_hlsUrl s <> None <-> Fs.existsSync "stream.m3u8" (hls w) = true)
    /\ (Api.res_hlsUrl s <> None <-> Api.res_hlsAvailable s = true)
    /\ (forall st js s',
          Api.body (Api.get_status (with_jobs js (with_streamState st w)))
          = Api.Status s' ->
          Api.res_hlsAvailable s' = Api.res_hlsAvailable s
          /\ Api.res_hlsUrl s' = Api.res_hlsUrl s)
    /\ (forall d s',
          Api.body (Api.get_status (with_hls d w)) = Api.Status s' ->
          Api.res_isRunning s' = Api.res_isRunning s)
    /\ handle GetStatus w = w.
Proof.
  eexists. split; [reflexivity|]. simpl.
  assert (Hurl : (if Fs.existsSync "stream.m3u8" (hls w)
                  then Some Api.PORT_URL else None) <> None
                 <-> Fs.existsSync "stream.m3u8" (hls w) = true).
  { destruct (Fs.existsSync "stream.m3u8" (hls w)); split;
      try discriminate; try reflexivity.
    intros H; now elim H. }
  split; [reflexivity|]. split; [reflexivity|].
  split; [exact Hurl|]. split; [exact Hurl|].
  split; [|split; [|reflexivity]].
  - intros st js s' H. injection H as <-. split; reflexivity.
  - intros d s' H. injection H as <-. reflexivity.
Qed.

(** The status of a server whose child has failed while a playlist is
    still on disk. *)
Lemma status_reads_state_and_directory_witness :
  Api.body
    (Api.get_status
       (run [(0, ProbeSettled true); (10, PostStart (Some "rtsp://camera/live"));
             (900, ChildClose 0%nat (Some 1))]
            (boot (Some [seg "stream.m3u8" true]))))
  = Api.Status
      {| Api.res_isRunning := false;
         Api.res_hlsAvailable := true;
         Api.res_hlsUrl := Some Api.PORT_URL;
         Api.res_rtspUrl := Some "rtsp://camera/live";
         Api.res_startTime := Some 10;
         Api.res_mode := Api.production;
         Api.res_hasFFmpeg := true |}.
Proof.
  destruct (status_reads_state_and_directory
              (run [(0, ProbeSettled true);
                    (10, PostStart (Some "rtsp://camera/live"));
                    (900, ChildClose 0%nat (Some 1))]
                 (boot (Some [seg "stream.m3u8" true]))))
    as (s & Heq & _).
  rewrite Heq. simpl. injection Heq as <-. reflexivity.
Defined.

End Routes.

(** ** The availability probe *)

Section ProbeFacts.
Import Probe Descr.

Lemma settled_resolve (v : bool) (s : State) :
  settled (resolve v s)
  = match settled s with Some b => Some b | None => Some v end.
Proof. unfold resolve. destruct (settled s) eqn:H; simpl; auto. Qed.

Lemma settled_on_timeout (s : State) :
  settled (on_timeout s)
  = match settled s with Some b => Some b | None => Some false end.
Proof. unfold on_timeout. rewrite settled_resolve. reflexivity. Qed.

Lemma settled_on_child (ev : ChildEvent) (s : State) (b : bool) :
  settled s = Some b -> settled (on_child ev s) = Some b.
Proof.
  intros Hs. destruct ev; simpl; rewrite ?settled_resolve, ?Hs; reflexivity.
Qed.

(** A settled promise keeps its value. *)
Lemma run_settled (trace : list (Z * ChildEvent)) :
  forall s b, settled s = Some b -> settled (run trace s) = Some b.
Proof.
  induction trace as [|[t ev] trace IH]; intros s b Hs; simpl.
  - destruct (timerFired s); [exact Hs|].
    rewrite settled_on_timeout, Hs. reflexivity.
  - apply IH, settled_on_child.
    destruct (negb (timerFired s) && (TIMEOUT_MS <=? t)); [|exact Hs].
    rewrite settled_on_timeout, Hs. reflexivity.
Qed.

Lemma succeeds_cons_inv had t ev trace :
  succeeds had ((t, ev) :: trace) ->
  t < TIMEOUT_MS
  /\ ((ev = CloseEvent (Some 0) /\ had = true)
      \/ (is_data ev = true /\ succeeds true trace)).
Proof.
  intros (pre & t' & post & Heq & Ht & Hpre & Hout).
  destruct pre as [|[t0 ev0] pre]; simpl in Heq.
  - injection Heq as -> -> _. split; [exact Ht|]. left.
    split; [reflexivity|]. destruct Hout as [H | H]; [exact H | now elim H].
  - injection Heq as -> -> ->.
    inversion Hpre as [|? ? [Ht0 Hd] Hrest]; subst. simpl in *.
    split; [exact Ht0|]. right. split; [exact Hd|].
    exists pre, t', post. repeat split; auto.
Qed.

Lemma run_pending (trace : list (Z * ChildEvent)) :
  forall s, settled s = None -> timerFired s = false ->
    (exists b, settled (run trace s) = Some b)
    /\ (settled (run trace s) = Some true <-> succeeds (hasOutput s) trace).
Proof.
  induction trace as [|[t ev] trace IH]; intros s Hs Hf; simpl.
  - rewrite Hf, settled_on_timeout, Hs. split; [now exists false|].
    split; [discriminate|].
    intros (pre & t & post & Heq & _). now destruct pre.
  - rewrite Hf. simpl negb. rewrite andb_true_l.
    destruct (TIMEOUT_MS <=? t) eqn:Ht.
    + apply Z.leb_le in Ht.
      assert (Hno : settled (on_child ev (on_timeout s)) = Some false).
      { apply settled_on_child. now rewrite settled_on_timeout, Hs. }
      rewrite (run_settled trace _ _ Hno).
      split; [now exists false|]. split; [discriminate|].
      intros H. apply succeeds_cons_inv in H. lia.
    + apply Z.leb_gt in Ht. destruct ev as [| | |code].
      * destruct (IH (on_child StdoutData s) Hs Hf) as [Hex Hiff].
        split; [exact Hex|]. rewrite Hiff. simpl. split.
        -- intros (pre & t' & post & -> & Ht' & Hpre & _).
           exists ((t, StdoutData) :: pre), t', post.
           repeat split; auto. right; discriminate.
        -- intros H. apply succeeds_cons_inv in H.
           destruct H as [_ [[H _] | [_ H]]]; [discriminate | exact H].
      * destruct (IH (on_child StderrData s) Hs Hf) as [Hex Hiff].
        split; [exact Hex|]. rewrite Hiff. simpl. split.
        -- intros (pre & t' & post & -> & Ht' & Hpre & _).
           exists ((t, StderrData) :: pre), t', post.
           repeat split; auto. right; discriminate.
        -- intros H. apply succeeds_cons_inv in H.
           destruct H as [_ [[H _] | [_ H]]]; [discriminate | exact H].
      * assert (Hno : settled (on_child ErrorEvent s) = Some false)
          by (simpl; now rewrite settled_resolve, Hs).
        rewrite (run_settled trace _ _ Hno).
        split; [now exists false|]. split; [discriminate|].
        intros H. apply succeeds_cons_inv in H.
        destruct H as [_ [[H _] | [H _]]]; discriminate.
      * assert (Hv : settled (on_child (CloseEvent code) s)
                     = Some (code_is_zero code && hasOutput s))
          by (simpl; now rewrite settled_resolve, Hs).
        rewrite (run_settled trace _ _ Hv).
        split; [eexists; reflexivity|]. split.
        -- intros H. injection H as H. apply andb_true_iff in H.
           destruct H as [Hc Ho].
           destruct code as [c|]; [|discriminate]. simpl in Hc.
           apply Z.eqb_eq in Hc. subst c.
           exists [], t, trace. repeat split; auto.
        -- intros H. apply succeeds_cons_inv in H.
           destruct H as [_ [[H Ho] | [H _]]]; [|discriminate].
           injection H as ->. rewrite Ho. reflexivity.
Qed.

(** C5: the promise of [checkFFmpeg] always settles, and it settles to
    [true] exactly when the child was spawned, some chunk of standard
    output or standard error arrived, and the child then closed with
    code 0 earlier than 5000 ms after the spawn with no error event
    before the close; so a spawn that throws, an error event, a close
    with another code or by a signal, and the 5000 ms timer coming first
    all give [false]. *)
Theorem probe_true_iff_output_and_clean_exit (o : SpawnOutcome) :
  (exists b, checkFFmpeg o = Some b)
  /\ (checkFFmpeg o = Some true <->
      exists pre t post,
        o = Spawned (pre ++ (t, CloseEvent (Some 0)) :: post)
        /\ t < 5000
        /\ pre <> []
        /\ Forall (fun te => fst te < 5000 /\ is_data (snd te) = true) pre).
Proof.
  destruct o as [|trace]; simpl.
  - split; [now exists false|]. split; [discriminate|].
    intros (pre & t & post & H & _). discriminate.
  - destruct (run_pending trace init eq_refl eq_refl) as [Hex Hiff].
    split; [exact Hex|]. rewrite Hiff. unfold succeeds. simpl. split.
    + intros (pre & t & post & -> & Ht & Hpre & [H | H]); [discriminate|].
      exists pre, t, post. repeat split; auto.
    + intros (pre & t & post & Heq & Ht & Hne & Hpre).
      injection Heq as ->. exists pre, t, post. repeat split; auto.
Qed.

(** A probe whose child prints its version on standard error and exits. *)
Lemma probe_true_iff_output_and_clean_exit_witness :
  checkFFmpeg (Spawned [(40, StderrData); (55, CloseEvent (Some 0))])
  = Some true.
Proof.
  apply (proj2 (probe_true_iff_output_and_clean_exit
                  (Spawned [(40, StderrData); (55, CloseEvent (Some 0))]))).
  exists [(40, StderrData)], 55, [].
  split; [reflexivity|]. split; [lia|]. split; [discriminate|].
  constructor; [split; [simpl; lia | reflexivity] | constructor].
Defined.

End ProbeFacts.

(** ** Starting a stream *)

Section Start.
Import Supervisor Descr Server.

Lemma promise_of_job p w :
  promise_of p w = option_map promise (job_of p w).
Proof. reflexivity. Qed.

Lemma nth_error_alter {A : Type} (f : A -> A) (l : list A) :
  forall i, nth_error (alter f i l) i = option_map f (nth_error l i).
Proof.
  induction l as [|x l IH]; intros [|i]; simpl; auto.
Qed.

Lemma job_of_advance p t w :
  job_of p (advance t w)
  = option_map (fun j => if due t j
                         then grace_timeout (isRunning (streamState w)) j
                         else j) (job_of p w).
Proof. unfold job_of. simpl. apply nth_error_map. Qed.

Lemma clock_advance t w : clock (advance t w) = Z.max (clock w) t.
Proof. reflexivity. Qed.

Lemma job_of_on_close p code w :
  job_of p (on_close p code w)
  = option_map
      (match code with
       | Some c => if negb (c =? 0)
                   then settle (Rejected (ExitCodeFailure c))
                   else fun j => j
       | None => fun j => j
       end) (job_of p w).
Proof.
  unfold on_close, job_of. destruct code as [c|].
  - destruct (negb (c =? 0)); simpl.
    + apply nth_error_alter.
    + now destruct (nth_error (jobs w) p).
  - simpl. now destruct (nth_error (jobs w) p).
Qed.

Lemma job_of_on_error p message w :
  job_of p (on_error p message w)
  = option_map (settle (Rejected (SpawnFailure message))) (job_of p w).
Proof. unfold on_error, job_of. simpl. apply nth_error_alter. Qed.

Lemma clock_on_close p code w : clock (on_close p code w) = clock w.
Proof.
  unfold on_close. destruct code as [c|]; [|reflexivity].
  destruct (negb (c =? 0)); reflexivity.
Qed.

(** What a successful call of the start route leaves behind. *)
Lemma post_start_spawns (url : string) (w : World) :
  hasFFmpeg (streamState w) = true -> url <> "" ->
  let w' := fst (Api.post_start (Some url) w) in
  snd (Api.post_start (Some url) w) = Api.Awaiting (List.length (jobs w))
  /\ streamState w'
     = {| isRunning := true; rtspUrl := Some url;
          startTime := Some (clock w);
          ffmpegProcess := Some (List.length (jobs w));
          hasFFmpeg := true |}
  /\ job_of (List.length (jobs w)) w' = Some (fresh_job url (clock w))
  /\ List.length (jobs w') = S (List.length (jobs w))
  /\ clock w' = clock w /\ hls w' = hls w.
Proof.
  intros Hcap Hurl.
  assert (Htruthy : Js.truthy (Some url) = true).
  { simpl. destruct (String.eqb_spec url ""); [contradiction | reflexivity]. }
  unfold Api.post_start. rewrite Htruthy, Hcap. simpl negb. cbv iota.
  unfold startRTSPStream. rewrite Hcap. simpl negb. cbv iota.
  set (w1 := match ffmpegProcess (streamState w) with
             | Some old => kill old SIGTERM w
             | None => w
             end).
  assert (Hlen : List.length (jobs w1) = List.length (jobs w)).
  { subst w1. destruct (ffmpegProcess (streamState w)); simpl;
      [apply length_alter | reflexivity]. }
  assert (Hclock : clock w1 = clock w)
    by (subst w1; destruct (ffmpegProcess (streamState w)); reflexivity).
  assert (Hhls : hls w1 = hls w)
    by (subst w1; destruct (ffmpegProcess (streamState w)); reflexivity).
  assert (Hcap1 : hasFFmpeg (streamState w1) = true)
    by (subst w1; destruct (ffmpegProcess (streamState w)); exact Hcap).
  simpl. rewrite Hlen, Hclock, Hcap1, Hhls.
  repeat split.
  - unfold job_of. simpl. rewrite <- Hlen.
    rewrite nth_error_app2 by lia. rewrite Nat.sub_diag. reflexivity.
  - rewrite length_app, Hlen. simpl. lia.
Qed.

Lemma due_fresh url t0 t :
  due t (fresh_job url t0) = (t0 + 3000 <=? t).
Proof. reflexivity. Qed.

(** The start route, called at [t0] on a capable server. *)
Lemma deliver_start (url : string) (t0 : Z) (w : World) :
  hasFFmpeg (streamState w) = true -> url <> "" -> clock w <= t0 ->
  let w0 := deliver (t0, PostStart (Some url)) w in
  let p := List.length (jobs w) in
  streamState w0
  = {| isRunning := true; rtspUrl := Some url; startTime := Some t0;
       ffmpegProcess := Some p; hasFFmpeg := true |}
  /\ job_of p w0 = Some (fresh_job url t0)
  /\ clock w0 = t0.
Proof.
  intros Hcap Hurl Hclock. unfold deliver; simpl fst; simpl snd.
  unfold handle.
  assert (Hcap' : hasFFmpeg (streamState (advance t0 w)) = true)
    by exact Hcap.
  destruct (post_start_spawns url (advance t0 w) Hcap' Hurl)
    as (_ & Hst & Hjob & _ & Hclk & _).
  assert (Hlen : List.length (jobs (advance t0 w)) = List.length (jobs w))
    by (simpl; apply length_map).
  rewrite Hlen in *. rewrite clock_advance in *.
  replace (Z.max (clock w) t0) with t0 in * by lia.
  repeat split; assumption.
Qed.

(** C1, as the code has it.  A start request with an address arrives at
    [t0] on a capable server and spawns child [p]; nothing else happens
    to the server before the state is looked at, at [T], 3000 ms or more
    later.  If the child has not ended, the promise is resolved with the
    playlist path and the job is marked running, while before the 3000 ms
    have passed the promise is still pending.  If the child closed within
    the 3000 ms with a non-zero code, the promise is rejected with the
    error that carries that code.  If it closed within the 3000 ms with
    code 0 or by a signal, the promise is rejected by the timer with the
    start-timeout error, which carries no code.  If the child emitted an
    error within the 3000 ms, the promise is rejected with that error. *)
Theorem start_outcome_after_grace (w : World) (url : string) (t0 T : Z)
    (Hcap : hasFFmpeg (streamState w) = true)
    (Hurl : url <> "")
    (Hclock : clock w <= t0)
    (HT : t0 + 3000 <= T) :
  let p := List.length (jobs w) in
  let started := (t0, PostStart (Some url)) in
  (let w' := run [started; (T, GetStatus)] w in
   promise_of p w' = Some (Resolved outputPath)
   /\ isRunning (streamState w') = true
   /\ ffmpegProcess (streamState w') = Some p)
  /\ (forall t, t0 <= t < t0 + 3000 ->
      promise_of p (run [started; (t, GetStatus)] w) = Some Pending)
  /\ (forall t1 c, t0 <= t1 < t0 + 3000 -> c <> 0 ->
      let w' := run [started; (t1, ChildClose p (Some c)); (T, GetStatus)] w in
      promise_of p w' = Some (Rejected (ExitCodeFailure c))
      /\ isRunning (streamState w') = false)
  /\ (forall t1 code, t0 <= t1 < t0 + 3000 -> code = Some 0 \/ code = None ->
      let w' := run [started; (t1, ChildClose p code); (T, GetStatus)] w in
      promise_of p w' = Some (Rejected StartTimeout)
      /\ isRunning (streamState w') = false)
  /\ (forall t1 message, t0 <= t1 < t0 + 3000 ->
      let w' := run [started; (t1, ChildError p message); (T, GetStatus)] w in
      promise_of p w' = Some (Rejected (SpawnFailure message))
      /\ isRunning (streamState w') = false).
Proof.
  intros p started. unfold run; simpl fold_left.
  destruct (deliver_start url t0 w Hcap Hurl Hclock) as (Hst & Hjob & _).
  fold p in Hst, Hjob. fold started in Hst, Hjob.
  set (w0 := deliver started w) in *. clearbody w0.
  assert (Hlate : (t0 + 3000 <=? T) = true) by (apply Z.leb_le; lia).
  assert (Hearly : forall t, t < t0 + 3000 -> (t0 + 3000 <=? t) = false)
    by (intros t Ht; apply Z.leb_gt; lia).
  split; [|split; [|split; [|split]]].
  - deliver_event.
    rewrite promise_of_job, job_of_advance, Hjob, streamState_advance, Hst.
    simpl option_map. rewrite due_fresh, Hlate. repeat split.
  - intros t Ht. deliver_event.
    rewrite promise_of_job, job_of_advance, Hjob.
    simpl option_map. rewrite due_fresh, (Hearly t) by lia. reflexivity.
  - intros t1 c Ht1 Hc. deliver_event.
    rewrite promise_of_job, job_of_advance, streamState_advance.
    rewrite job_of_on_close, streamState_on_close, job_of_advance, Hjob.
    simpl option_map. rewrite due_fresh, (Hearly t1) by lia.
    destruct (Z.eqb_spec c 0) as [-> | _]; [contradiction|].
    simpl. split; [|reflexivity].
    destruct (due T _); reflexivity.
  - intros t1 code Ht1 Hcode.
    deliver_event.
    rewrite promise_of_job, job_of_advance, streamState_advance.
    rewrite job_of_on_close, streamState_on_close, job_of_advance, Hjob.
    simpl option_map. rewrite due_fresh, (Hearly t1) by lia.
    destruct Hcode as [-> | ->]; simpl; rewrite due_fresh, Hlate;
      split; reflexivity.
  - intros t1 message Ht1.
    deliver_event.
    rewrite promise_of_job, job_of_advance, streamState_advance.
    rewrite job_of_on_error, job_of_advance, Hjob.
    simpl option_map. rewrite due_fresh, (Hearly t1) by lia.
    simpl. split; [|reflexivity].
    destruct (due T _); reflexivity.
Qed.

(** A start at 10 ms, looked at 3000 ms later: the child still alive,
    and the child closed with code 1 at 700 ms. *)
Lemma start_outcome_after_grace_witness :
  promise_of 0%nat (run [(10, PostStart (Some CAMERA)); (3010, GetStatus)]
                  capable_server)
  = Some (Resolved outputPath)
  /\ promise_of 0%nat (run [(10, PostStart (Some CAMERA));
                        (700, ChildClose 0%nat (Some 1)); (3010, GetStatus)]
                     capable_server)
     = Some (Rejected (ExitCodeFailure 1)).
Proof.
  assert (Hurl : CAMERA <> "") by discriminate.
  assert (Hclock : clock capable_server <= 10) by (simpl; lia).
  assert (HT : 10 + 3000 <= 3010) by lia.
  destruct (start_outcome_after_grace capable_server CAMERA 10 3010
              eq_refl Hurl Hclock HT) as ((Halive & _) & _ & Hcode & _).
  split; [exact Halive|].
  apply (Hcode 700 1); [lia | discriminate].
Defined.

(** C1 as stated fails: a child that closes with code 0 inside the grace
    delay makes the start promise fail with the start-timeout error, which
    does not carry the exit code, and which the start route reports as
    "FFmpeg not available". *)
Lemma clean_exit_in_grace_is_timeout :
  let w := run [(10, PostStart (Some CAMERA));
                (1000, ChildClose 0%nat (Some 0)); (3010, GetStatus)]
             capable_server in
  promise_of 0%nat w = Some (Rejected StartTimeout)
  /\ promise_of 0%nat w <> Some (Rejected (ExitCodeFailure 0))
  /\ Js.includes (error_message StartTimeout) "exit code" = false
  /\ Api.start_settled CAMERA (Rejected StartTimeout)
     = Some {| Api.status := 500; Api.body := Api.FFmpegNotAvailable |}.
Proof.
  intro w. split; [reflexivity|]. split; [discriminate|].
  split; reflexivity.
Qed.

End Start.

(** ** A child that ends after the job was reported as running *)

Section Exit.
Import Supervisor Descr Server.

Lemma alter_fixed {A : Type} (f : A -> A) (l : list A) :
  forall i x, nth_error l i = Some x -> f x = x -> alter f i l = l.
Proof.
  induction l as [|y l IH]; intros [|i] x Hnth Hfx; simpl in *;
    try discriminate.
  - injection Hnth as ->. now rewrite Hfx.
  - f_equal. exact (IH i x Hnth Hfx).
Qed.

Lemma with_jobs_same (w : World) : with_jobs (jobs w) w = w.
Proof. destruct w; reflexivity. Qed.

(** Rejecting a promise that is already resolved does nothing. *)
Lemma reject_resolved p e w path :
  promise_of p w = Some (Resolved path) -> reject p e w = w.
Proof.
  unfold promise_of, reject. intros H.
  destruct (nth_error (jobs w) p) as [j|] eqn:Hj; [|discriminate].
  injection H as Hp.
  rewrite (alter_fixed _ _ p j Hj).
  - apply with_jobs_same.
  - unfold settle. rewrite Hp. reflexivity.
Qed.

(** C4, as the code has it: when the child of a job that was reported
    as running closes, with whatever code, the server does the same
    thing: [isRunning] and the handle are cleared, the address and the
    start time stay, the start promise stays resolved, so no error
    reaches the caller, and nothing else changes; the state after a
    non-zero code is the state after code 0. *)
Theorem exit_after_running_ignores_code
    (w : World) (p : pid) (path : string) (code : option Z)
    (Hhandle : ffmpegProcess (streamState w) = Some p)
    (Hrun : isRunning (streamState w) = true)
    (Hres : promise_of p w = Some (Resolved path)) :
  let w' := handle (ChildClose p code) w in
  w' = with_streamState (clear_running (streamState w)) w
  /\ isRunning (streamState w') = false
  /\ ffmpegProcess (streamState w') = None
  /\ rtspUrl (streamState w') = rtspUrl (streamState w)
  /\ startTime (streamState w') = startTime (streamState w)
  /\ promise_of p w' = Some (Resolved path)
  /\ jobs w' = jobs w
  /\ w' = handle (ChildClose p (Some 0)) w.
Proof.
  intro w'. subst w'. unfold handle.
  assert (Heq : on_close p code w
                = with_streamState (clear_running (streamState w)) w).
  { unfold on_close. destruct code as [c|]; [|reflexivity].
    destruct (negb (c =? 0)); [|reflexivity].
    apply reject_resolved with (path := path). exact Hres. }
  rewrite Heq. repeat split; try reflexivity. exact Hres.
Qed.

(** The running job of [running_server], closed with code 1. *)
Lemma exit_after_running_ignores_code_witness :
  handle (ChildClose 0%nat (Some 1)) running_server
  = handle (ChildClose 0%nat (Some 0)) running_server.
Proof.
  apply (exit_after_running_ignores_code running_server 0%nat outputPath
           (Some 1)); reflexivity.
Defined.

(** C4 as stated fails: after a child of a running job closes with
    code 1 the server is in the very state it is in after a close with
    code 0, with the start promise still resolved; no reading of the
    server state can call the first Failed and the second Idle. *)
Lemma exit_code_leaves_no_trace :
  run [(5000, ChildClose 0%nat (Some 1))] running_server
  = run [(5000, ChildClose 0%nat (Some 0))] running_server
  /\ promise_of 0%nat (run [(5000, ChildClose 0%nat (Some 1))] running_server)
     = Some (Resolved outputPath)
  /\ ~ exists classify : World -> JobState,
        classify (run [(5000, ChildClose 0%nat (Some 1))] running_server)
        = Failed
        /\ classify (run [(5000, ChildClose 0%nat (Some 0))] running_server)
           = Idle.
Proof.
  assert (Heq : run [(5000, ChildClose 0%nat (Some 1))] running_server
                = run [(5000, ChildClose 0%nat (Some 0))] running_server)
    by reflexivity.
  split; [exact Heq|]. split; [reflexivity|].
  intros [classify [Hfailed Hidle]].
  rewrite Heq, Hidle in Hfailed. discriminate.
Qed.

End Exit.

(** ** The children along a run *)

Section Children.
Import Supervisor Descr Server Notions.

Lemma nth_error_alter_any {A : Type} (f : A -> A) (l : list A) :
  forall i q,
    nth_error (alter f i l) q
    = option_map (fun x => if Nat.eqb i q then f x else x) (nth_error l q).
Proof.
  induction l as [|x l IH]; intros [|i] [|q]; simpl; auto;
    now destruct (nth_error l q).
Qed.

Lemma job_evolves_refl (j : Job) : job_evolves j j.
Proof.
  repeat split; auto. exists []. now rewrite app_nil_r.
Qed.

Lemma job_evolves_trans (a b c : Job) :
  job_evolves a b -> job_evolves b c -> job_evolves a c.
Proof.
  intros (Ha & Hd & Hp & m & Hs) (Ha' & Hd' & Hp' & m' & Hs').
  split; [congruence|]. split; [congruence|]. split.
  - intros Hne. rewrite Hp'; [now apply Hp|]. now rewrite Hp.
  - exists (m ++ m'). rewrite Hs', Hs, app_assoc. reflexivity.
Qed.

Lemma job_evolves_settle (v : Promise) (j : Job) :
  job_evolves j (settle v j).
Proof.
  unfold settle. destruct (promise j) eqn:Hp; try apply job_evolves_refl.
  repeat split; simpl; auto.
  - intros H. now elim H.
  - exists []. now rewrite app_nil_r.
Qed.

Lemma job_evolves_signalled (sig : Signal) (j : Job) :
  job_evolves j (signalled sig j).
Proof. repeat split; simpl; auto. now exists [sig]. Qed.

Lemma job_evolves_grace (running : bool) (j : Job) :
  job_evolves j (grace_timeout running j).
Proof.
  apply job_evolves_trans with (b := timer_done j).
  - repeat split; simpl; auto. exists []. now rewrite app_nil_r.
  - unfold grace_timeout. destruct running; apply job_evolves_settle.
Qed.

(** The record of an existing child after [startRTSPStream] went through. *)
Lemma job_of_start (url : string) (w : World) (q : pid) (j : Job) :
  hasFFmpeg (streamState w) = true ->
  job_of q w = Some j ->
  job_of q (fst (startRTSPStream url w))
  = Some (if holds w q then signalled SIGTERM j else j).
Proof.
  intros Hcap Hj. unfold startRTSPStream, holds, job_of in *.
  rewrite Hcap. simpl.
  assert (Hq : (q < List.length (jobs w))%nat)
    by (apply nth_error_Some; congruence).
  destruct (ffmpegProcess (streamState w)) as [old|]; simpl.
  - rewrite nth_error_app1 by (rewrite length_alter; exact Hq).
    rewrite nth_error_alter_any, Hj. reflexivity.
  - rewrite nth_error_app1 by exact Hq. exact Hj.
Qed.

Lemma job_of_stop (w : World) (q : pid) :
  job_of q (stopRTSPStream w)
  = option_map (fun j => if holds w q then signalled SIGTERM j else j)
      (job_of q w).
Proof.
  unfold job_of, holds. rewrite jobs_stop.
  destruct (ffmpegProcess (streamState w)) as [p|].
  - apply nth_error_alter_any.
  - now destruct (nth_error (jobs w) q).
Qed.

Lemma job_of_on_close_any (p q : pid) (code : option Z) (w : World) :
  job_of q (on_close p code w)
  = option_map
      (fun j => match code with
                | Some c => if Nat.eqb p q && negb (c =? 0)
                            then settle (Rejected (ExitCodeFailure c)) j
                            else j
                | None => j
                end) (job_of q w).
Proof.
  unfold on_close, job_of. destruct code as [c|].
  - destruct (negb (c =? 0)); simpl.
    + rewrite nth_error_alter_any.
      destruct (nth_error (jobs w) q); simpl; [|reflexivity].
      now rewrite andb_true_r.
    + destruct (nth_error (jobs w) q); simpl; [|reflexivity].
      now rewrite andb_false_r.
  - simpl. now destruct (nth_error (jobs w) q).
Qed.

Lemma job_of_on_error_any (p q : pid) (message : string) (w : World) :
  job_of q (on_error p message w)
  = option_map
      (fun j => if Nat.eqb p q
                then settle (Rejected (SpawnFailure message)) j else j)
      (job_of q w).
Proof. unfold on_error, job_of. simpl. apply nth_error_alter_any. Qed.

(** What one event does to the record of an existing child. *)
Lemma job_of_deliver (te : Z * Event) (w : World) (q : pid) (j : Job) :
  job_of q w = Some j ->
  exists j',
    job_of q (deliver te w) = Some j'
    /\ job_evolves j j'
    /\ signals j'
       = signals j ++ (if terminates (snd te) w && holds w q
                       then [SIGTERM] else []).
Proof.
  destruct te as [t ev]. intros Hj. simpl snd.
  assert (Hadv : exists j0, job_of q (advance t w) = Some j0
                            /\ job_evolves j j0 /\ signals j0 = signals j).
  { rewrite job_of_advance, Hj. simpl. eexists. split; [reflexivity|].
    destruct (due t j).
    - split; [apply job_evolves_grace|].
      unfold grace_timeout, settle.
      destruct (isRunning (streamState w)); simpl;
        destruct (promise j); reflexivity.
    - split; [apply job_evolves_refl | reflexivity]. }
  destruct Hadv as (j0 & Hj0 & Hev0 & Hs0).
  assert (Hholds : holds (advance t w) q = holds w q) by reflexivity.
  assert (Hterm : terminates ev (advance t w) = terminates ev w)
    by (destruct ev; reflexivity).
  rewrite <- Hholds, <- Hterm, <- Hs0.
  cut (exists j', job_of q (handle ev (advance t w)) = Some j'
                  /\ job_evolves j0 j'
                  /\ signals j'
                     = signals j0 ++ (if terminates ev (advance t w)
                                         && holds (advance t w) q
                                      then [SIGTERM] else [])).
  { intros (j' & H1 & H2 & H3). exists j'. split; [exact H1|].
    split; [eapply job_evolves_trans; eassumption | exact H3]. }
  revert Hj0. generalize (advance t w) as v. clear. intros v Hj0.
  destruct ev as [capable | body | | | p message | p code | d];
    unfold handle.
  - exists j0. split; [exact Hj0|]. split; [apply job_evolves_refl|].
    simpl. now rewrite app_nil_r.
  - rewrite fst_post_start. unfold terminates, spawns.
    destruct body as [url|].
    + destruct (Js.truthy (Some url) && hasFFmpeg (streamState v)) eqn:Hc.
      * apply andb_true_iff in Hc. destruct Hc as [_ Hcap].
        rewrite (job_of_start url v q j0 Hcap Hj0). eexists.
        split; [reflexivity|]. simpl andb.
        destruct (holds v q).
        -- split; [apply job_evolves_signalled | reflexivity].
        -- split; [apply job_evolves_refl | simpl; now rewrite app_nil_r].
      * exists j0. split; [exact Hj0|]. split; [apply job_evolves_refl|].
        simpl. now rewrite app_nil_r.
    + exists j0. split; [exact Hj0|]. split; [apply job_evolves_refl|].
      simpl. now rewrite app_nil_r.
  - unfold Api.post_stop, fst. rewrite job_of_stop, Hj0. simpl.
    eexists. split; [reflexivity|]. destruct (holds v q).
    + split; [apply job_evolves_signalled | reflexivity].
    + split; [apply job_evolves_refl | simpl; now rewrite app_nil_r].
  - exists j0. split; [exact Hj0|]. split; [apply job_evolves_refl|].
    simpl. now rewrite app_nil_r.
  - rewrite job_of_on_error_any, Hj0. simpl. eexists.
    split; [reflexivity|]. rewrite app_nil_r. destruct (Nat.eqb p q).
    + split; [apply job_evolves_settle|].
      unfold settle. destruct (promise j0); reflexivity.
    + split; [apply job_evolves_refl | reflexivity].
  - rewrite job_of_on_close_any, Hj0. simpl. eexists.
    split; [reflexivity|]. rewrite app_nil_r. destruct code as [c|].
    + destruct (Nat.eqb p q && negb (c =? 0)).
      * split; [apply job_evolves_settle|].
        unfold settle. destruct (promise j0); reflexivity.
      * split; [apply job_evolves_refl | reflexivity].
    + split; [apply job_evolves_refl | reflexivity].
  - exists j0. split; [exact Hj0|]. split; [apply job_evolves_refl|].
    simpl. now rewrite app_nil_r.
Qed.






(** The start route, called at any time on a capable server. *)
Lemma deliver_start_full (url : string) (t0 : Z) (w : World) :
  hasFFmpeg (streamState w) = true -> url <> "" ->
  let w0 := deliver (t0, PostStart (Some url)) w in
  let p := List.length (jobs w) in
  streamState w0
  = {| isRunning := true; rtspUrl := Some url;
       startTime := Some (Z.max (clock w) t0);
       ffmpegProcess := Some p; hasFFmpeg := true |}
  /\ job_of p w0 = Some (fresh_job url (Z.max (clock w) t0))
  /\ List.length (jobs w0) = S p
  /\ clock w0 = Z.max (clock w) t0
  /\ hls w0 = hls w.
Proof.
  intros Hcap Hurl. deliver_event.
  assert (Hcap' : hasFFmpeg (streamState (advance t0 w)) = true)
    by exact Hcap.
  destruct (post_start_spawns url (advance t0 w) Hcap' Hurl)
    as (_ & Hst & Hjob & Hlen' & Hclk & Hhls).
  assert (Hlen : List.length (jobs (advance t0 w)) = List.length (jobs w))
    by (simpl; apply length_map).
  rewrite Hlen in *. rewrite clock_advance in *.
  repeat split; assumption.
Qed.



(** The segment directory is changed by stop requests and by outside
    writers only: a start request, the end of a child, a timer or a status
    request leave every file where it is, stale ones included.  And
    [hasFFmpeg] is changed by the settling of the probe only. *)
Theorem directory_and_capability_frame (te : Z * Event) (w : World) :
  (snd te <> PostStop -> (forall d, snd te <> DirChanged d) ->
   hls (deliver te w) = hls w)
  /\ ((forall capable, snd te <> ProbeSettled capable) ->
      hasFFmpeg (streamState (deliver te w)) = hasFFmpeg (streamState w)).
Proof.
  destruct te as [t ev]. simpl snd. split.
  - intros Hstop Hdir.
    destruct ev as [capable | body | | | p message | p code | d];
      try reflexivity.
    + deliver_event. rewrite fst_post_start.
      destruct body as [url|]; [|reflexivity].
      destruct (Js.truthy (Some url)
                && hasFFmpeg (streamState (advance t w))); [|reflexivity].
      unfold startRTSPStream.
      destruct (negb (hasFFmpeg (streamState (advance t w))));
        [reflexivity|].
      simpl. destruct (ffmpegProcess (streamState w)); reflexivity.
    + now elim Hstop.
    + deliver_event. unfold on_close. destruct code as [c|]; [|reflexivity].
      destruct (negb (c =? 0)); reflexivity.
    + now elim (Hdir d).
  - intros Hprobe.
    destruct ev as [capable | body | | | p message | p code | d];
      try reflexivity.
    + now elim (Hprobe capable).
    + deliver_event. rewrite fst_post_start.
      destruct body as [url|]; [|reflexivity].
      destruct (Js.truthy (Some url)
                && hasFFmpeg (streamState (advance t w))) eqn:Hc;
        [|reflexivity].
      apply andb_true_iff in Hc. destruct Hc as [_ Hcap].
      rewrite (streamState_start url _ Hcap). simpl. symmetry. exact Hcap.
    + deliver_event. unfold Api.post_stop, fst.
      rewrite streamState_stop. reflexivity.
    + deliver_event. rewrite streamState_on_close. reflexivity.
Qed.

(** A new start over a directory that still holds an old playlist. *)
Lemma directory_and_capability_frame_witness :
  hls (deliver (20, PostStart (Some CAMERA))
         (with_hls (Some [seg "stream.m3u8" true]) capable_server))
  = Some [seg "stream.m3u8" true].
Proof.
  apply (proj1 (directory_and_capability_frame
                  (20, PostStart (Some CAMERA))
                  (with_hls (Some [seg "stream.m3u8" true]) capable_server)));
    [discriminate | intros d; discriminate].
Defined.

End Children.

(** ** Requests that overlap *)

Section Overlap.
Import Supervisor Descr Server Notions.

Lemma job_of_advance_fresh (url : string) (t0 t : Z) (w : World) (p : pid) :
  job_of p w = Some (fresh_job url t0) -> t < t0 + 3000 ->
  job_of p (advance t w) = Some (fresh_job url t0).
Proof.
  intros Hj Ht. rewrite job_of_advance, Hj. simpl option_map.
  rewrite due_fresh. now replace (t0 + 3000 <=? t) with false
    by (symmetry; apply Z.leb_gt; lia).
Qed.

(** The server after two start requests in a row. *)
Lemma after_two_starts
    (w : World) (urlA urlB : string) (tA tB : Z) :
  hasFFmpeg (streamState w) = true -> urlA <> "" -> urlB <> "" ->
  clock w <= tA -> tA <= tB ->
  let p := List.length (jobs w) in
  let w0 := deliver (tA, PostStart (Some urlA)) w in
  let w1 := deliver (tB, PostStart (Some urlB)) w0 in
  streamState w0
  = {| isRunning := true; rtspUrl := Some urlA; startTime := Some tA;
       ffmpegProcess := Some p; hasFFmpeg := true |}
  /\ job_of p w0 = Some (fresh_job urlA tA)
  /\ streamState w1
     = {| isRunning := true; rtspUrl := Some urlB; startTime := Some tB;
          ffmpegProcess := Some (S p); hasFFmpeg := true |}
  /\ job_of (S p) w1 = Some (fresh_job urlB tB)
  /\ List.length (jobs w1) = S (S p).
Proof.
  intros Hcap HA HB Hclock Horder p w0 w1.
  destruct (deliver_start_full urlA tA w Hcap HA)
    as (Hst0 & Hj0 & Hl0 & Hc0 & _).
  fold p in Hst0, Hj0, Hl0. fold w0 in Hst0, Hj0, Hl0, Hc0.
  assert (Hcap0 : hasFFmpeg (streamState w0) = true) by now rewrite Hst0.
  destruct (deliver_start_full urlB tB w0 Hcap0 HB)
    as (Hst1 & Hj1 & Hl1 & _).
  fold w1 in Hst1, Hj1, Hl1.
  rewrite Hl0 in *. rewrite Hc0 in *.
  replace (Z.max (clock w) tA) with tA in * by lia.
  replace (Z.max tA tB) with tB in * by lia.
  repeat split; assumption.
Qed.



(** When a start request has superseded a job and the superseded child
    then closes within the grace delay of the new one, the close handler
    clears the job record of the new child: whatever the exit code, the
    new start fails with the start-timeout error although the new child
    was sent no signal and has not ended, and the server no longer holds
    it. *)
Theorem stale_close_fails_new_start
    (w : World) (urlA urlB : string) (tA tB tC T : Z) (code : option Z)
    (Hcap : hasFFmpeg (streamState w) = true)
    (HA : urlA <> "") (HB : urlB <> "")
    (Hclock : clock w <= tA) (Horder : tA <= tB)
    (HC : tB <= tC < tB + 3000) (HT : tB + 3000 <= T) :
  let p := List.length (jobs w) in
  let w' := run [(tA, PostStart (Some urlA)); (tB, PostStart (Some urlB));
                 (tC, ChildClose p code); (T, GetStatus)] w in
  promise_of (S p) w' = Some (Rejected StartTimeout)
  /\ option_map signals (job_of (S p) w') = Some []
  /\ streamState w'
     = {| isRunning := false; rtspUrl := Some urlB; startTime := Some tB;
          ffmpegProcess := None; hasFFmpeg := true |}.
Proof.
  intros p w'. subst w'. unfold run; simpl fold_left.
  destruct (after_two_starts w urlA urlB tA tB Hcap HA HB Hclock Horder)
    as (_ & _ & Hst1 & Hj1 & _).
  fold p in Hst1, Hj1.
  set (w1 := deliver (tB, PostStart (Some urlB))
               (deliver (tA, PostStart (Some urlA)) w)) in *.
  clearbody w1. deliver_event.
  assert (Hj2 : job_of (S p) (on_close p code (advance tC w1))
                = Some (fresh_job urlB tB)).
  { rewrite job_of_on_close_any, (job_of_advance_fresh urlB tB tC w1 (S p) Hj1)
      by lia.
    simpl. replace (Nat.eqb p (S p)) with false
      by (symmetry; apply Nat.eqb_neq; lia).
    now destruct code. }
  assert (Hst2 : streamState (on_close p code (advance tC w1))
                 = {| isRunning := false; rtspUrl := Some urlB;
                      startTime := Some tB; ffmpegProcess := None;
                      hasFFmpeg := true |}).
  { rewrite streamState_on_close, streamState_advance, Hst1. reflexivity. }
  rewrite promise_of_job, job_of_advance, streamState_advance, Hj2, Hst2.
  simpl option_map. rewrite due_fresh.
  replace (tB + 3000 <=? T) with true by (symmetry; apply Z.leb_le; lia).
  repeat split.
Qed.

(** A camera is restarted after one second; the first FFmpeg, killed by
    the restart, closes 200 ms later. *)
Lemma stale_close_fails_new_start_witness :
  promise_of 1%nat
    (run [(10, PostStart (Some CAMERA)); (1010, PostStart (Some CAMERA));
          (1210, ChildClose 0%nat None); (4010, GetStatus)] capable_server)
  = Some (Rejected StartTimeout).
Proof.
  assert (HA : CAMERA <> "") by discriminate.
  assert (Hclock : clock capable_server <= 10) by (simpl; lia).
  assert (Horder : 10 <= 1010) by lia.
  assert (HC : 1010 <= 1210 < 1010 + 3000) by lia.
  assert (HT : 1010 + 3000 <= 4010) by lia.
  exact (proj1 (stale_close_fails_new_start capable_server CAMERA CAMERA
                  10 1010 1210 4010 None eq_refl HA HA Hclock Horder HC HT)).
Defined.



End Overlap.

(** ** What the caller is told *)

Section Answers.
Import Ascii Supervisor Descr Server Notions.

Lemma includes_skip (c : Ascii.ascii) (rest a b : string) :
  lacks c a = true ->
  Js.includes (a ++ b) (String c rest) = Js.includes b (String c rest).
Proof.
  induction a as [|x a IH]; intros Hl; [reflexivity|].
  simpl in Hl. apply andb_true_iff in Hl. destruct Hl as [Hx Ha].
  apply negb_true_iff in Hx. apply Ascii.eqb_neq in Hx.
  change (Js.includes (String x a ++ b) (String c rest))
    with (String.prefix (String c rest) (String x (a ++ b))
          || Js.includes (a ++ b) (String c rest)).
  simpl String.prefix.
  destruct (Ascii.ascii_dec c x) as [-> | _]; [now elim Hx|].
  simpl. now apply IH.
Qed.

Lemma lacks_n_digits (d : Decimal.uint) :
  lacks "n"%char (NilEmpty.string_of_uint d) = true.
Proof. induction d; simpl; auto. Qed.

Lemma lacks_n_number (z : Z) : lacks "n"%char (Js.number_toString z) = true.
Proof.
  unfold Js.number_toString.
  destruct (Z.to_int z) as [d | d]; simpl.
  - destruct d; try reflexivity; apply (lacks_n_digits (_ d)).
  - destruct d; try reflexivity; apply (lacks_n_digits (_ d)).
Qed.

(** The error text of an exit code has neither phrase the route looks for. *)
Lemma exit_code_message_phrases (c : Z) :
  Js.includes (error_message (ExitCodeFailure c)) "not available" = false
  /\ Js.includes (error_message (ExitCodeFailure c)) "not support" = false.
Proof.
  unfold error_message.
  split; rewrite includes_skip by reflexivity;
    rewrite includes_skip by apply lacks_n_number; reflexivity.
Qed.

(** How the start route answers once the promise of [startRTSPStream]
    settles: nothing while it is pending; status 200 with the fixed
    playlist URL and the requested address when it is resolved; status
    500 whenever it is rejected; and a rejection that carries an exit
    code, whatever the code, is reported as a failed conversion with the
    error text, never as a missing FFmpeg. *)
Theorem start_route_answers (url : string) :
  Api.start_settled url Pending = None
  /\ (forall v,
        Api.start_settled url (Resolved v)
        = Some {| Api.status := 200;
                  Api.body := Api.ConversionStarted Api.PORT_URL url |})
  /\ (forall e, exists r,
        Api.start_settled url (Rejected e) = Some r /\ Api.status r = 500%nat)
  /\ (forall c,
        Api.start_settled url (Rejected (ExitCodeFailure c))
        = Some {| Api.status := 500;
                  Api.body :=
                    Api.ConversionFailed (error_message (ExitCodeFailure c))
                      url |}).
Proof.
  split; [reflexivity|]. split; [reflexivity|]. split.
  - intros e. unfold Api.start_settled.
    destruct (Js.includes (error_message e) "not available"
              || Js.includes (error_message e) "not support");
      eexists; split; reflexivity.
  - intros c. unfold Api.start_settled.
    destruct (exit_code_message_phrases c) as [-> ->]. reflexivity.
Qed.

Lemma existsb_filter_other (file : string) (d : Fs.Dir) :
  is_hls_file file = true ->
  existsb (fun e => String.eqb (Fs.name e) file) (filter other_file d) = false.
Proof.
  intros Hf. induction d as [|e d IH]; simpl; [reflexivity|].
  unfold other_file at 1. destruct (is_hls_file (Fs.name e)) eqn:He; simpl.
  - exact IH.
  - rewrite IH, orb_false_r. apply String.eqb_neq. congruence.
Qed.

(** After a stop in which no removal fails, no file with one of the two
    HLS endings exists in the directory, and the status route reports a
    server that is not running, has no playlist and no address. *)
Theorem status_after_stop (w : World) (d : Fs.Dir)
    (Hd : hls w = Some d) (Hdel : deletable d) :
  (forall file, is_hls_file file = true ->
     Fs.existsSync file (hls (stopRTSPStream w)) = false)
  /\ Api.get_status (stopRTSPStream w)
     = {| Api.status := 200;
          Api.body := Api.Status
            {| Api.res_isRunning := false;
               Api.res_hlsAvailable := false;
               Api.res_hlsUrl := None;
               Api.res_rtspUrl := None;
               Api.res_startTime := None;
               Api.res_mode := if hasFFmpeg (streamState w)
                               then Api.production else Api.demo;
               Api.res_hasFFmpeg := hasFFmpeg (streamState w) |} |}.
Proof.
  assert (Hhls : hls (stopRTSPStream w) = Some (filter other_file d)).
  { rewrite hls_stop, Hd. simpl. now rewrite sweep_deletable. }
  split.
  - intros file Hf. rewrite Hhls. simpl. now apply existsb_filter_other.
  - unfold Api.get_status. rewrite Hhls, streamState_stop.
    simpl Fs.existsSync.
    rewrite (existsb_filter_other "stream.m3u8" d eq_refl). reflexivity.
Qed.

(** A running server stopped over a playlist and two segments. *)
Lemma status_after_stop_witness :
  Fs.existsSync "stream.m3u8"
    (hls (stopRTSPStream
            (with_hls (Some [seg "segment004.ts" true; seg "stream.m3u8" true;
                             seg "segment005.ts" true]) running_server)))
  = false.
Proof.
  apply (proj1 (status_after_stop
                  (with_hls (Some [seg "segment004.ts" true;
                                   seg "stream.m3u8" true;
                                   seg "segment005.ts" true]) running_server)
                  [seg "segment004.ts" true; seg "stream.m3u8" true;
                   seg "segment005.ts" true] eq_refl
                  ltac:(repeat constructor))).
  reflexivity.
Defined.

Lemma sweep_clean_iff (d : Fs.Dir) : snd (sweep d) = None <-> deletable d.
Proof.
  split.
  - induction d as [|e d IH]; simpl; intros H; [constructor|].
    destruct (is_hls_file (Fs.name e)) eqn:He.
    + destruct (Fs.removable e) eqn:Hr; [|discriminate].
      constructor; [intros _; exact Hr | exact (IH H)].
    + destruct (sweep d) as [kept err]; simpl in *.
      constructor; [intros Hc; congruence | exact (IH H)].
  - intros H. now rewrite sweep_deletable.
Qed.

Lemma app_one_neq {A : Type} (l : list A) (x : A) : l ++ [x] <> l.
Proof.
  intros H. apply (f_equal (@List.length A)) in H.
  rewrite length_app in H. simpl in H. lia.
Qed.

(** A stop writes at most one line to the error log, and it writes none
    exactly when the directory could be listed and every file with an
    HLS ending could be removed. *)
Theorem stop_logs_iff_cleanup_failed (w : World) :
  (console (stopRTSPStream w) = console w
   \/ console (stopRTSPStream w) = console w ++ [CLEANUP_ERROR])
  /\ (console (stopRTSPStream w) = console w
      <-> exists d, hls w = Some d /\ deletable d).
Proof.
  rewrite console_stop. destruct (hls w) as [d|].
  - destruct (snd (sweep d)) as [err|] eqn:Hs.
    + split; [right; reflexivity|]. split.
      * intros H. now apply app_one_neq in H.
      * intros (d' & Hd' & Hdel). injection Hd' as <-.
        apply sweep_clean_iff in Hdel. congruence.
    + split; [left; reflexivity|]. split; [|reflexivity].
      intros _. exists d. split; [reflexivity|]. now apply sweep_clean_iff.
  - split; [right; reflexivity|]. split.
    + intros H. now apply app_one_neq in H.
    + intros (d & Hd & _). discriminate.
Qed.

(** A stop over a directory that has been removed logs the failure. *)
Lemma stop_logs_iff_cleanup_failed_witness :
  console (stopRTSPStream (boot None)) <> console (boot None).
Proof.
  intros H.
  apply (proj2 (stop_logs_iff_cleanup_failed (boot None))) in H.
  destruct H as (d & Hd & _). discriminate.
Defined.

End Answers.

(** ** The record store *)

Section StoreFacts.
Import Store Notions.

Lemma get_set_same (k : string) (v : Json) (o : Obj) :
  get k (set k v o) = Some v.
Proof.
  induction o as [|[k0 x] o IH]; simpl.
  - now rewrite String.eqb_refl.
  - destruct (String.eqb_spec k0 k) as [-> | Hne]; simpl.
    + now rewrite String.eqb_refl.
    + destruct (String.eqb_spec k0 k); [contradiction | exact IH].
Qed.

Lemma get_set_other (k k' : string) (v : Json) (o : Obj) :
  k' <> k -> get k' (set k v o) = get k' o.
Proof.
  intros Hne. induction o as [|[k0 x] o IH]; simpl.
  - destruct (String.eqb_spec k k'); [congruence | reflexivity].
  - destruct (String.eqb_spec k0 k) as [-> | Hk]; simpl.
    + destruct (String.eqb_spec k k'); [congruence | reflexivity].
    + destruct (String.eqb_spec k0 k'); [reflexivity | exact IH].
Qed.

Lemma get_absent (k : string) (o : Obj) :
  ~ In k (map fst o) -> get k o = None.
Proof.
  induction o as [|[k0 x] o IH]; simpl; intros H; [reflexivity|].
  destruct (String.eqb_spec k0 k) as [-> | _].
  - exfalso. apply H. now left.
  - apply IH. intros Hin. apply H. now right.
Qed.

(** Reading a property of [{ ...a, ...b }]. *)
Lemma get_spread (k : string) (b : Obj) :
  well_formed b ->
  forall a,
    get k (spread a b)
    = match get k b with Some v => Some v | None => get k a end.
Proof.
  unfold well_formed, spread.
  induction b as [|[k0 v0] b IH]; intros Hwf a; simpl; [reflexivity|].
  inversion Hwf as [|? ? Hnotin Hwf']; subst.
  rewrite (IH Hwf').
  destruct (String.eqb_spec k0 k) as [-> | Hne].
  - rewrite (get_absent k b Hnotin). apply get_set_same.
  - destruct (get k b); [reflexivity|]. apply get_set_other. congruence.
Qed.


Lemma find_behind {A : Type} (pred : A -> bool) (pre rest : list A) :
  Forall (fun x => pred x = false) pre ->
  find pred (pre ++ rest) = find pred rest.
Proof.
  induction 1 as [|x pre Hx _ IH]; simpl; [reflexivity|].
  now rewrite Hx.
Qed.

Lemma findIndex_behind {A : Type} (pred : A -> bool)
    (pre : list A) (x : A) (post : list A) :
  Forall (fun y => pred y = false) pre -> pred x = true ->
  findIndex pred (pre ++ x :: post) = Some (List.length pre).
Proof.
  intros Hpre Hx. induction Hpre as [|y pre Hy _ IH]; simpl.
  - now rewrite Hx.
  - now rewrite Hy, IH.
Qed.

Lemma findIndex_none {A : Type} (pred : A -> bool) (l : list A) :
  (forall x, In x l -> pred x = false) ->
  findIndex pred l = None /\ find pred l = None.
Proof.
  induction l as [|x l IH]; intros H; simpl; [split; reflexivity|].
  rewrite (H x (or_introl eq_refl)).
  destruct IH as [-> ->]; [intros y Hy; apply H; now right|].
  split; reflexivity.
Qed.


Lemma splice1_middle {A : Type} (pre : list A) (x : A) (post : list A) :
  splice1 (List.length pre) (pre ++ x :: post) = pre ++ post.
Proof. induction pre as [|y pre IH]; simpl; [reflexivity | now rewrite IH]. Qed.


(** The properties of a created overlay: [createdAt] is always the
    server's time stamp, whatever the request says; an [id] sent in the
    request replaces the generated one; every other property is the
    request's; and without an [id] in the request the overlay gets the
    decimal text of [Date.now()]. *)
Theorem created_overlay_properties
    (reqBody : Obj) (now : Z) (iso : string) (Hwf : well_formed reqBody) :
  get "createdAt" (newOverlay reqBody now iso) = Some (JString iso)
  /\ (forall v, get "id" reqBody = Some v ->
        get "id" (newOverlay reqBody now iso) = Some v)
  /\ (get "id" reqBody = None ->
        get "id" (newOverlay reqBody now iso)
        = Some (JString (Js.number_toString now)))
  /\ (forall k, k <> "createdAt" -> k <> "id" ->
        get k (newOverlay reqBody now iso) = get k reqBody).
Proof.
  unfold newOverlay. split; [apply get_set_same|].
  assert (Hother : forall k, k <> "createdAt" ->
            get k (set "createdAt" (JString iso)
                     (spread [("id", JString (Js.number_toString now))] reqBody))
            = match get k reqBody with
              | Some v => Some v
              | None => get k [("id", JString (Js.number_toString now))]
              end).
  { intros k Hk. rewrite get_set_other by exact Hk.
    now apply get_spread. }
  split; [|split].
  - intros v Hv. rewrite Hother by discriminate. now rewrite Hv.
  - intros Hnone. rewrite Hother by discriminate. now rewrite Hnone.
  - intros k Hc Hi. rewrite Hother by exact Hc.
    destruct (get k reqBody); [reflexivity|]. unfold get.
    destruct (String.eqb_spec "id" k); [congruence | reflexivity].
Qed.

(** A request that tries to set its own [id] and [createdAt]. *)
Lemma created_overlay_properties_witness :
  get "id" (newOverlay [("id", JString "logo"); ("createdAt", JNull)] 1700
              "2024-01-01T00:00:00.000Z")
  = Some (JString "logo")
  /\ get "createdAt" (newOverlay [("id", JString "logo"); ("createdAt", JNull)]
                        1700 "2024-01-01T00:00:00.000Z")
     = Some (JString "2024-01-01T00:00:00.000Z").
Proof.
  assert (Hwf : well_formed [("id", JString "logo"); ("createdAt", JNull)]).
  { repeat constructor; simpl; intuition discriminate. }
  destruct (created_overlay_properties
              [("id", JString "logo"); ("createdAt", JNull)] 1700
              "2024-01-01T00:00:00.000Z" Hwf) as (Hc & Hid & _).
  split; [apply Hid; reflexivity | exact Hc].
Defined.








(** An [id] that no stored overlay has: reading, updating and deleting
    all answer 404, and neither the update nor the delete touches the
    file, writable or not. *)
Theorem unknown_id_is_not_found
    (f : DataFile) (d : Data) (id : string) (reqBody : Obj)
    (Hf : content f = Some d)
    (Hnone : forall o, In o (overlays d) -> has_id id o = false) :
  get_overlay id f = NOT_FOUND
  /\ put_overlay id reqBody f = (f, NOT_FOUND)
  /\ delete_overlay id f = (f, NOT_FOUND).
Proof.
  destruct (findIndex_none _ _ Hnone) as [Hi Hfind].
  unfold get_overlay, put_overlay, delete_overlay, readData.
  rewrite Hf, Hi, Hfind. repeat split.
Qed.

(** Any request by [id] on the store as it is first written. *)
Lemma unknown_id_is_not_found_witness :
  delete_overlay "1700" (file_with initialData)
  = (file_with initialData, NOT_FOUND).
Proof.
  exact (proj2 (proj2
           (unknown_id_is_not_found (file_with initialData) initialData
              "1700" [] eq_refl (fun o (H : In o []) => match H with end)))).
Defined.

(** Deleting removes exactly the first overlay that has the given [id]
    and keeps the others in order; a later overlay with the same [id],
    if there is one, is what a read by that [id] returns afterwards, and
    otherwise the read answers 404. *)
Theorem delete_removes_first
    (d : Data) (pre : list Obj) (o : Obj) (post : list Obj) (id : string)
    (Hd : overlays d = pre ++ o :: post)
    (Hpre : Forall (fun x => has_id id x = false) pre)
    (Ho : has_id id o = true) :
  delete_overlay id (file_with d)
  = (file_with {| overlays := pre ++ post; settings := settings d |},
     {| status := 200; body := Message "Overlay deleted successfully" |})
  /\ get_overlay id (fst (delete_overlay id (file_with d)))
     = match find (has_id id) post with
       | Some o' => {| status := 200; body := Document o' |}
       | None => NOT_FOUND
       end.
Proof.
  assert (Hdel : delete_overlay id (file_with d)
                 = (file_with {| overlays := pre ++ post;
                                 settings := settings d |},
                    {| status := 200;
                       body := Message "Overlay deleted successfully" |})).
  { unfold delete_overlay. simpl. rewrite Hd.
    rewrite (findIndex_behind _ pre o post Hpre Ho), splice1_middle.
    reflexivity. }
  split; [exact Hdel|]. rewrite Hdel. unfold get_overlay. simpl.
  now rewrite (find_behind _ pre post Hpre).
Qed.

(** Two overlays were created with the same [id]; one is deleted. *)
Lemma delete_removes_first_witness :
  get_overlay "a"
    (fst (delete_overlay "a"
            (file_with
               {| overlays := [[("id", JString "a"); ("name", JString "one")];
                               [("id", JString "a"); ("name", JString "two")]];
                  settings := [] |})))
  = {| status := 200;
       body := Document [("id", JString "a"); ("name", JString "two")] |}.
Proof.
  exact (proj2
           (delete_removes_first
              {| overlays := [[("id", JString "a"); ("name", JString "one")];
                              [("id", JString "a"); ("name", JString "two")]];
                 settings := [] |}
              [] [("id", JString "a"); ("name", JString "one")]
              [[("id", JString "a"); ("name", JString "two")]] "a"
              eq_refl (Forall_nil _) eq_refl)).
Defined.



(** When the data file cannot be read, every route of the store answers
    500; when it cannot be written, no route changes it and creating an
    overlay or updating the settings answers 500; in both cases the file
    is left as it is. *)
Theorem store_errors_change_nothing
    (f : DataFile) (id : string) (reqBody : Obj) (now : Z) (iso : string) :
  (content f = None ->
     status (get_overlays f) = 500%nat
     /\ status (get_overlay id f) = 500%nat
     /\ status (get_settings f) = 500%nat
     /\ status (snd (put_overlay id reqBody f)) = 500%nat
     /\ status (snd (delete_overlay id f)) = 500%nat)
  /\ (content f = None \/ writable f = false ->
      post_overlay reqBody now iso f
      = (f, {| status := 500; body := Error "Failed to create overlay" |})
      /\ put_settings reqBody f
         = (f, {| status := 500; body := Error "Failed to update settings" |})
      /\ fst (put_overlay id reqBody f) = f
      /\ fst (delete_overlay id f) = f
      /\ (400 <= status (snd (put_overlay id reqBody f)))%nat
      /\ (400 <= status (snd (delete_overlay id f)))%nat).
Proof.
  split.
  - intros Hc.
    unfold get_overlays, get_overlay, get_settings, put_overlay,
      delete_overlay, readData.
    rewrite Hc. repeat split.
  - intros H.
    unfold post_overlay, put_settings, put_overlay, delete_overlay,
      readData, writeData.
    destruct (content f) as [d|] eqn:Hc.
    + destruct H as [H | H]; [discriminate|]. rewrite H.
      destruct (findIndex (has_id id) (overlays d));
        repeat split; simpl; lia.
    + repeat split; simpl; lia.
Qed.

(** A data file that has become read-only. *)
Lemma store_errors_change_nothing_witness :
  post_overlay [("name", JString "Logo")] 1700 "2024-01-01T00:00:00.000Z"
    {| content := Some initialData; writable := false |}
  = ({| content := Some initialData; writable := false |},
     {| status := 500; body := Error "Failed to create overlay" |}).
Proof.
  apply (proj2 (store_errors_change_nothing
                  {| content := Some initialData; writable := false |}
                  "1700" [("name", JString "Logo")] 1700
                  "2024-01-01T00:00:00.000Z")).
  right. reflexivity.
Defined.

End StoreFacts.

(** ** The job record and the child it names *)

Section Held.
Import Supervisor Descr Server Notions.

Lemma held_matches_step (te : Z * Event) (w : World) :
  held_matches w -> held_matches (deliver te w).
Proof.
  intros Hinv.
  assert (Hkeep : forall capable,
            streamState (deliver te w)
            = {| isRunning := isRunning (streamState w);
                 rtspUrl := rtspUrl (streamState w);
                 startTime := startTime (streamState w);
                 ffmpegProcess := ffmpegProcess (streamState w);
                 hasFFmpeg := capable |} ->
            held_matches (deliver te w)).
  { intros capable Heq p Hp. rewrite Heq in *. simpl in *.
    destruct (Hinv p Hp) as (j & url & t & Hj & Ha & Hu & Ht & Hr).
    destruct (job_of_deliver te w p j Hj) as (j' & Hj' & (Ha' & _) & _).
    exists j', url, t. repeat split; try assumption. congruence. }
  assert (Hsame : streamState (deliver te w) = streamState w ->
                  held_matches (deliver te w)).
  { intros Heq. apply (Hkeep (hasFFmpeg (streamState w))).
    rewrite Heq. now destruct (streamState w). }
  assert (Hnone : ffmpegProcess (streamState (deliver te w)) = None ->
                  held_matches (deliver te w)).
  { intros Heq p Hp. congruence. }
  destruct te as [t ev].
  destruct ev as [capable | body | | | p message | p code | d].
  - apply (Hkeep capable). reflexivity.
  - destruct (spawns (PostStart body) w) eqn:Hsp.
    + destruct body as [url|]; [|discriminate].
      unfold spawns in Hsp. apply andb_true_iff in Hsp.
      destruct Hsp as [Htruthy Hcap].
      assert (Hurl : url <> "") by (intros ->; discriminate).
      destruct (deliver_start_full url t w Hcap Hurl) as (Hst & Hj & _).
      intros q Hq. rewrite Hst in *. simpl in Hq. injection Hq as <-.
      exists (fresh_job url (Z.max (clock w) t)), url, (Z.max (clock w) t).
      repeat split. exact Hj.
    + apply Hsame. deliver_event. rewrite fst_post_start.
      unfold spawns in Hsp.
      change (hasFFmpeg (streamState (advance t w)))
        with (hasFFmpeg (streamState w)).
      destruct body as [url|]; [|reflexivity]. now rewrite Hsp.
  - apply Hnone. deliver_event. unfold Api.post_stop, fst.
    now rewrite streamState_stop.
  - apply Hsame. reflexivity.
  - apply Hnone. reflexivity.
  - apply Hnone. deliver_event. now rewrite streamState_on_close.
  - apply Hsame. reflexivity.
Qed.

(** In every state the server can reach, if the job record holds a
    child, then that child exists, it was launched with the argument
    template filled with the address the record (and so the status route)
    shows, and the record is marked as running with a start time. *)
Theorem held_child_matches_record
    (d : option Fs.Dir) (trace : list (Z * Event)) (p : pid)
    (Hp : ffmpegProcess (streamState (run trace (boot d))) = Some p) :
  exists j url t,
    job_of p (run trace (boot d)) = Some j
    /\ args j = ffmpegArgs url
    /\ rtspUrl (streamState (run trace (boot d))) = Some url
    /\ startTime (streamState (run trace (boot d))) = Some t
    /\ isRunning (streamState (run trace (boot d))) = true.
Proof.
  revert p Hp. change (held_matches (run trace (boot d))).
  assert (H0 : held_matches (boot d)) by (intros p Hp; discriminate).
  revert H0. unfold run. generalize (boot d).
  induction trace as [|te trace IH]; intros w Hw; simpl.
  - exact Hw.
  - apply IH, held_matches_step, Hw.
Qed.

(** A server that was started, stopped and started again for another
    camera. *)
Lemma held_child_matches_record_witness :
  exists j,
    job_of 1%nat
      (run [(0, ProbeSettled true); (10, PostStart (Some CAMERA));
            (4000, PostStop); (5000, PostStart (Some "rtsp://other/live"))]
         (boot (Some [])))
    = Some j
    /\ args j = ffmpegArgs "rtsp://other/live".
Proof.
  destruct (held_child_matches_record (Some [])
              [(0, ProbeSettled true); (10, PostStart (Some CAMERA));
               (4000, PostStop); (5000, PostStart (Some "rtsp://other/live"))]
              1%nat eq_refl) as (j & url & t & Hj & Ha & Hu & _).
  exists j. split; [exact Hj|]. rewrite Ha. injection Hu as <-. reflexivity.
Defined.


End Held.

(** ** Every start request is answered *)

Section Deadline.
Import Supervisor Descr Server Notions.

Lemma Forall_alter {A : Type} (P : A -> Prop) (f : A -> A) (l : list A) :
  (forall x, P x -> P (f x)) ->
  forall i, Forall P l -> Forall P (alter f i l).
Proof.
  intros Hf. induction l as [|x l IH]; intros [|i] H; simpl;
    inversion H; subst; constructor; auto.
Qed.

Lemma timer_sound_signalled now sig j :
  timer_sound now j -> timer_sound now (signalled sig j).
Proof. intros [H1 H2]. split; assumption. Qed.

Lemma timer_sound_rejected now e j :
  timer_sound now j -> timer_sound now (settle (Rejected e) j).
Proof.
  intros [H1 H2]. unfold settle.
  destruct (promise j) eqn:Hp;
    try (split; [exact H1 | rewrite Hp; exact H2]).
  split; simpl; [exact H1 | discriminate].
Qed.

Lemma graceDue_grace_timeout running j :
  graceDue (grace_timeout running j) = graceDue j.
Proof.
  unfold grace_timeout, settle.
  destruct running; simpl; destruct (promise j); reflexivity.
Qed.

Lemma promise_grace_timeout running j :
  promise (grace_timeout running j) <> Pending.
Proof.
  unfold grace_timeout, settle.
  destruct running; simpl; destruct (promise j) eqn:Hp; simpl;
    rewrite ?Hp; discriminate.
Qed.

Lemma timer_sound_advance now t running j :
  timer_sound now j ->
  timer_sound (Z.max now t)
    (if due t j then grace_timeout running j else j).
Proof.
  intros [H1 H2]. unfold timer_sound, due.
  destruct (graceFired j) eqn:Hf; cbn [negb andb].
  - rewrite Hf. specialize (H1 eq_refl).
    split; [intros _; lia | intros _; apply H2; exact H1].
  - destruct (graceDue j <=? t) eqn:Hd.
    + apply Z.leb_le in Hd. rewrite graceDue_grace_timeout.
      split; [intros _; lia | intros _; apply promise_grace_timeout].
    + apply Z.leb_gt in Hd. rewrite Hf.
      split; [discriminate | intros Hle; apply H2; lia].
Qed.

Lemma jobs_start (url : string) (w : World) :
  hasFFmpeg (streamState w) = true ->
  jobs (fst (startRTSPStream url w))
  = match ffmpegProcess (streamState w) with
    | Some old => alter (signalled SIGTERM) old (jobs w)
    | None => jobs w
    end ++ [fresh_job url (clock w)].
Proof.
  intros Hcap. unfold startRTSPStream. rewrite Hcap. simpl.
  destruct (ffmpegProcess (streamState w)); reflexivity.
Qed.

Lemma clock_cleanup (w : World) : clock (cleanup w) = clock w.
Proof.
  rewrite cleanup_sweep. destruct (hls w) as [d|]; simpl; [|reflexivity].
  destruct (snd (sweep d)); reflexivity.
Qed.

Lemma clock_handle (ev : Event) (w : World) : clock (handle ev w) = clock w.
Proof.
  destruct ev as [capable | body | | | p message | p code | d];
    unfold handle; try reflexivity.
  - rewrite fst_post_start. destruct body as [url|]; [|reflexivity].
    destruct (Js.truthy (Some url) && hasFFmpeg (streamState w)) eqn:Hc;
      [|reflexivity].
    apply andb_true_iff in Hc. destruct Hc as [_ Hcap].
    unfold startRTSPStream. rewrite Hcap. simpl.
    destruct (ffmpegProcess (streamState w)); reflexivity.
  - unfold Api.post_stop, fst, stopRTSPStream. rewrite clock_cleanup.
    destruct (ffmpegProcess (streamState w)); reflexivity.
  - apply clock_on_close.
Qed.

Lemma timer_sound_handle (ev : Event) (w : World) :
  Forall (timer_sound (clock w)) (jobs w) ->
  Forall (timer_sound (clock w)) (jobs (handle ev w)).
Proof.
  intros H.
  destruct ev as [capable | body | | | p message | p code | d];
    unfold handle; try exact H.
  - rewrite fst_post_start. destruct body as [url|]; [|exact H].
    destruct (Js.truthy (Some url) && hasFFmpeg (streamState w)) eqn:Hc;
      [|exact H].
    apply andb_true_iff in Hc. destruct Hc as [_ Hcap].
    rewrite (jobs_start url w Hcap). apply Forall_app. split.
    + destruct (ffmpegProcess (streamState w)); [|exact H].
      apply Forall_alter; [|exact H].
      intros j. apply timer_sound_signalled.
    + constructor; [|constructor]. split; simpl.
      * discriminate.
      * unfold GRACE_MS. lia.
  - unfold Api.post_stop, fst. rewrite jobs_stop.
    destruct (ffmpegProcess (streamState w)); [|exact H].
    apply Forall_alter; [|exact H]. intros j. apply timer_sound_signalled.
  - simpl. apply Forall_alter; [|exact H].
    intros j. apply timer_sound_rejected.
  - unfold on_close. destruct code as [c|]; [|exact H].
    destruct (negb (c =? 0)); [|exact H].
    simpl. apply Forall_alter; [|exact H].
    intros j. apply timer_sound_rejected.
Qed.

Lemma timer_sound_deliver (te : Z * Event) (w : World) :
  Forall (timer_sound (clock w)) (jobs w) ->
  Forall (timer_sound (clock (deliver te w))) (jobs (deliver te w)).
Proof.
  intros H. destruct te as [t ev]. unfold deliver; simpl fst; simpl snd.
  rewrite clock_handle. apply timer_sound_handle.
  rewrite clock_advance. simpl. apply Forall_map.
  revert H. apply Forall_impl. intros j. apply timer_sound_advance.
Qed.

(** Every start request is answered by the end of its grace delay: in
    every state the server can reach, the start promise of a child whose
    3000 ms have passed on the server's clock is settled, so the start
    route has sent its answer. *)
Theorem start_settles_by_deadline
    (d : option Fs.Dir) (trace : list (Z * Event)) (p : pid) (j : Job)
    (Hj : job_of p (run trace (boot d)) = Some j)
    (Hdue : graceDue j <= clock (run trace (boot d))) :
  promise j <> Pending
  /\ forall url, exists r, Api.start_settled url (promise j) = Some r.
Proof.
  assert (Hall : Forall (timer_sound (clock (run trace (boot d))))
                   (jobs (run trace (boot d)))).
  { clear Hj Hdue. unfold run.
    assert (H0 : Forall (timer_sound (clock (boot d))) (jobs (boot d)))
      by constructor.
    revert H0. generalize (boot d).
    induction trace as [|te trace IH]; intros w Hw; simpl.
    - exact Hw.
    - apply IH, timer_sound_deliver, Hw. }
  rewrite Forall_forall in Hall.
  destruct (Hall j (nth_error_In _ _ Hj)) as [_ Hsettled].
  specialize (Hsettled Hdue). split; [exact Hsettled|].
  intros url. unfold Api.start_settled.
  destruct (promise j) as [|v|e]; [now elim Hsettled | eexists; reflexivity|].
  destruct (Js.includes (error_message e) "not available"
            || Js.includes (error_message e) "not support");
    eexists; reflexivity.
Qed.

(** A start at 10 ms on a capable server, seen at 3010 ms. *)
Lemma start_settles_by_deadline_witness :
  promise_of 0%nat
    (run [(0, ProbeSettled true); (10, PostStart (Some CAMERA));
          (3010, GetStatus)] (boot (Some [])))
  <> Some Pending.
Proof.
  assert (Hdue : 3010 <= clock (run [(0, ProbeSettled true);
                                     (10, PostStart (Some CAMERA));
                                     (3010, GetStatus)] (boot (Some []))))
    by (simpl; lia).
  pose proof (proj1 (start_settles_by_deadline (Some [])
                       [(0, ProbeSettled true); (10, PostStart (Some CAMERA));
                        (3010, GetStatus)] 0%nat
                       {| args := ffmpegArgs CAMERA; signals := [];
                          promise := Resolved outputPath;
                          graceDue := 3010; graceFired := true |}
                       eq_refl Hdue)) as H.
  intros Heq. apply H. simpl. discriminate.
Defined.

End Deadline.
